(** * Frontmatter to HTML attributes: a shallow embedding of the plugin

    The repository holds two revisions of the plugin's [main.ts]:
    - [src/unnamed/part_000], which declares [prohibitedAttributeNames] and
      writes onto [leaf.view.containerEl] (module [Part000] below);
    - [src/src/main.ts], which drops the [position] key and writes onto the
      [.workspace-leaf-content] element found under the container (module
      [SrcMain] below).

    JavaScript strings are sequences of UTF-16 code units; they are modelled
    as [list N].  The DOM and the plugin's [appliedAttributes] WeakMap are
    finite maps keyed by an element handle. *)

From Stdlib Require Import ZArith NArith Ascii String List Lia.
From stdpp Require Import gmap list fin_maps.

Set Warnings "-register-all,-clear-no-such-hyp".
Local Open Scope N_scope.

(** ** JavaScript strings *)

Abbreviation jsstring := (list N).

(** The code units of an ASCII literal. *)
Fixpoint js (s : string) : jsstring :=
  match s with
  | EmptyString => []
  | String a r => N_of_ascii a :: js r
  end.

Arguments js : simpl never.

Definition is_ascii_upper (c : N) : bool := (65 <=? c) && (c <=? 90).
Definition is_ascii_lower (c : N) : bool := (97 <=? c) && (c <=? 122).
Definition is_ascii_digit (c : N) : bool := (48 <=? c) && (c <=? 57).
Definition hyphen : N := 45.

(** Membership in the complement of the class [[^a-zA-Z0-9\-]]. *)
Definition key_unit_ok (c : N) : bool :=
  is_ascii_lower c || is_ascii_upper c || is_ascii_digit c || (c =? hyphen).

(** [key.replace(/[^a-zA-Z0-9\-]/g, "-")]: the regular expression has no [u]
    flag, so it is matched against every code unit on its own. *)
Definition replace_invalid (key : jsstring) : jsstring :=
  map (fun c => if key_unit_ok c then c else hyphen) key.

(** [String.prototype.toLowerCase], code unit by code unit.  The Unicode
    case mapping is written out for Basic Latin, for the Latin-1 Supplement,
    and for the three code points outside these blocks whose lower-case form
    lies inside them: U+0130 (which lower-cases to [i] followed by U+0307),
    U+212A KELVIN SIGN (to [k]) and U+212B ANGSTROM SIGN (to U+00E5).  The
    other code units are returned as they are; the plugin never passes one
    of them to [toLowerCase], because it replaces them first. *)
Definition lower_unit (c : N) : jsstring :=
  if is_ascii_upper c then [c + 32]
  else if (192 <=? c) && (c <=? 222) && negb (c =? 215) then [c + 32]
  else if c =? 304 then [105; 775]
  else if c =? 8490 then [107]
  else if c =? 8491 then [229]
  else [c].

Definition toLowerCase (s : jsstring) : jsstring := flat_map lower_unit s.

(** [key.replace(/[^a-zA-Z0-9\-]/g, "-").toLowerCase()], the expression both
    revisions bind to [attributeKey]. *)
Definition attributeKey (key : jsstring) : jsstring :=
  toLowerCase (replace_invalid key).

(** [`data-${attributeKey}`] *)
Definition data_ (k : jsstring) : jsstring := js "data-" ++ k.

Arguments attributeKey : simpl never.
Arguments data_ : simpl never.

(** The ASCII-only lower-casing that [toLowerCase] amounts to on the output
    of [replace_invalid]. *)
Definition ascii_lower (c : N) : N := if is_ascii_upper c then c + 32 else c.

(** The sanitisation in the order the specification words it: lower-case
    first, replace afterwards. *)
Definition spec_sanitize (key : jsstring) : jsstring :=
  replace_invalid (toLowerCase key).

(** ** JavaScript values *)

(** A value of the Number type, an IEEE 754 binary64.  [Finite negative m e]
    is the double nearest to [(-1)^negative * m * 2^e]: every double is of
    this form with [m < 2^53] and [-1074 <= e <= 971], and a decimal literal
    denotes the double nearest to it.  Both zeros have [m = 0]. *)
Inductive Number : Type :=
| NaN
| Infinity (negative : bool)
| Finite (negative : bool) (m : N) (e : Z).

(** The number of an integer literal. *)
Definition int (z : Z) : Number := Finite (z <? 0)%Z (Z.abs_N z) 0.

(** A parsed frontmatter value, a finite tree.  An object is the list of
    its own enumerable string-keyed properties in enumeration order. *)
Inductive JSValue : Type :=
| JSUndefined
| JSNull
| JSBoolean (b : bool)
| JSNumber (x : Number)
| JSString (s : jsstring)
| JSArray (items : list JSValue)
| JSObject (props : list (jsstring * JSValue)).

Inductive JSType : Type :=
| TUndefined | TObject | TBoolean | TNumber | TString.

Definition typeof (v : JSValue) : JSType :=
  match v with
  | JSUndefined => TUndefined
  | JSNull => TObject
  | JSBoolean _ => TBoolean
  | JSNumber _ => TNumber
  | JSString _ => TString
  | JSArray _ => TObject
  | JSObject _ => TObject
  end.

Definition JSType_eqb (a b : JSType) : bool :=
  match a, b with
  | TUndefined, TUndefined | TObject, TObject | TBoolean, TBoolean
  | TNumber, TNumber | TString, TString => true
  | _, _ => false
  end.

(** Decimal digits of a natural number, most significant first. *)
Fixpoint digits_fuel (fuel : nat) (n : N) (acc : jsstring) : jsstring :=
  match fuel with
  | O => acc
  | S fuel' =>
      let acc' := (48 + n mod 10) :: acc in
      if n / 10 =? 0 then acc' else digits_fuel fuel' (n / 10) acc'
  end.

Definition N_digits (n : N) : jsstring := digits_fuel (S (N.size_nat n)) n [].

(** The double nearest to [m * 2^e], ties going to the even significand,
    with the significand and the exponent that the format stores: 53 bits
    unless the exponent reaches its minimum.  An exponent above 971 in the
    result stands for an overflow. *)
Definition to_double (m : N) (e : Z) : N * Z :=
  let shift := Z.min (53 - Z.of_N (N.size m)) (e + 1074) in
  if (0 <=? shift)%Z then (N.shiftl m (Z.to_N shift), (e - shift)%Z)
  else
    let r := Z.to_N (- shift) in
    let q := N.shiftr m r in
    let rest := m mod 2 ^ r in
    let half := 2 ^ (r - 1) in
    let q' := if (half <? rest) || ((half =? rest) && N.odd q) then q + 1 else q in
    if q' =? 2 ^ 53 then (2 ^ 52, (e - shift + 1)%Z) else (q', (e - shift)%Z).

Definition overflows (m : N) (e : Z) : bool :=
  let '(m', e') := to_double m e in negb (m' =? 0) && (971 <? e')%Z.

Definition isFinite (x : Number) : bool :=
  match x with
  | Finite _ m e => negb (overflows m e)
  | _ => false
  end.

(** The reals that round to the double [m * 2^e] (round to nearest, ties to
    even), as fractions over [den]: the double is [mid / den], the interval
    runs from [low / den] to [high / den], and its ends belong to it when
    [m] is even.  Below a power of two the next double is half as far. *)
Record Rounding : Type := {
  mid : Z; low : Z; high : Z; den : Z; closed : bool
}.

Definition rounding (m : N) (e : Z) : Rounding :=
  let t := (2 ^ Z.max e 0)%Z in
  let X := (4 * Z.of_N m * t)%Z in
  let narrow := (m =? 2 ^ 52) && (-1074 <? e)%Z in
  {| mid := X;
     low := (X - (if narrow then t else 2 * t))%Z;
     high := (X + 2 * t)%Z;
     den := (4 * 2 ^ Z.max (- e) 0)%Z;
     closed := N.even m |}.

(** A decimal [s * 10^(n-k)] with its distance [dist_num / dist_den] from
    the double. *)
Record Decimal : Type := {
  dec_s : Z; dec_n : Z; dist_num : Z; dist_den : Z
}.

Definition closer (a b : Decimal) : bool :=
  let l := (dist_num a * dist_den b)%Z in
  let r := (dist_num b * dist_den a)%Z in
  (l <? r)%Z || ((l =? r)%Z && Z.even (dec_s a)).

(** The [k]-digit decimals [s * 10^(n-k)], [10^(k-1) <= s < 10^k], inside
    the rounding interval: the one nearest to the double, if there is any. *)
Definition candidate (r : Rounding) (k n : Z) : option Decimal :=
  let p := (n - k)%Z in
  let c := (10 ^ Z.max (- p) 0)%Z in
  let unit := (10 ^ Z.max p 0 * den r)%Z in
  let lo := (low r * c)%Z in
  let hi := (high r * c)%Z in
  let s_min := if closed r then ((lo + unit - 1) / unit)%Z else (lo / unit + 1)%Z in
  let s_max := if closed r then (hi / unit)%Z else ((hi + unit - 1) / unit - 1)%Z in
  let s_lo := Z.max s_min (10 ^ (k - 1)) in
  let s_hi := Z.min s_max (10 ^ k - 1) in
  if (s_lo <=? s_hi)%Z then
    let clamp := fun s => Z.max s_lo (Z.min s_hi s) in
    let dec := fun s =>
      {| dec_s := s; dec_n := n;
         dist_num := Z.abs (s * unit - mid r * c); dist_den := (c * den r)%Z |} in
    let a := dec (clamp (mid r * c / unit)%Z) in
    let b := dec (clamp (mid r * c / unit + 1)%Z) in
    Some (if closer b a then b else a)
  else None.

Definition nearest (cs : list (option Decimal)) : option Decimal :=
  fold_right (fun c best =>
                match c, best with
                | Some a, Some b => Some (if closer b a then b else a)
                | Some a, None => Some a
                | None, _ => best
                end) None cs.

(** The least [k], counting up, for which some [k]-digit decimal rounds to
    the double; [ns] are the values of [n] to try. *)
Fixpoint shortest (fuel : nat) (r : Rounding) (ns : list Z) (k : Z)
  : option (Z * Decimal) :=
  match fuel with
  | O => None
  | S fuel' =>
      match nearest (map (candidate r k) ns) with
      | Some d => Some (k, d)
      | None => shortest fuel' r ns (k + 1)%Z
      end
  end.

(** The values of [n] with [10^(n-1) <= v < 10^n] for some [v] of the
    rounding interval lie around the decimal logarithm of [m * 2^e]. *)
Definition magnitudes (m : N) (e : Z) : list Z :=
  let n0 := ((Z.of_N (N.size m) + e) * 30103 / 100000)%Z in
  map (fun i => (n0 + i)%Z) [-2; -1; 0; 1; 2; 3]%Z.

(** The last steps of Number::toString: the digits of [s] laid out by [n]. *)
Definition layout (s k n : Z) : jsstring :=
  let ds := N_digits (Z.to_N s) in
  if (k <=? n)%Z && (n <=? 21)%Z then ds ++ repeat 48 (Z.to_nat (n - k))
  else if (0 <? n)%Z && (n <=? 21)%Z then
    take (Z.to_nat n) ds ++ [46] ++ drop (Z.to_nat n) ds
  else if (-6 <? n)%Z && (n <=? 0)%Z then
    [48; 46] ++ repeat 48 (Z.to_nat (- n)) ++ ds
  else
    let exponent :=
      [101; if (0 <? n - 1)%Z then 43 else 45] ++ N_digits (Z.to_N (Z.abs (n - 1))) in
    match ds with
    | d :: rest => (if (k =? 1)%Z then [d] else d :: 46 :: rest) ++ exponent
    | [] => exponent
    end.

(** Number::toString with radix 10, the text of [String(x)] and of
    [x.toString()]. *)
Definition NumberToString (x : Number) : jsstring :=
  match x with
  | NaN => js "NaN"
  | Infinity false => js "Infinity"
  | Infinity true => js "-Infinity"
  | Finite negative m e =>
      let '(m', e') := to_double m e in
      if m' =? 0 then js "0"
      else
        (if negative then [hyphen] else []) ++
        if (971 <? e')%Z then js "Infinity"
        else
          match shortest 17 (rounding m' e') (magnitudes m' e') 1 with
          | Some (k, d) => layout (dec_s d) k (dec_n d)
          | None => []
          end
  end.

Arguments NumberToString : simpl never.

Definition join_with (sep : jsstring) (parts : list jsstring) : jsstring :=
  match parts with
  | [] => []
  | p :: ps => p ++ flat_map (fun q => sep ++ q) ps
  end.

(** [String(value)] (the abstract operation ToString).  An array is joined
    with commas, [null] and [undefined] elements giving the empty string. *)
Fixpoint ToString (v : JSValue) : jsstring :=
  match v with
  | JSUndefined => js "undefined"
  | JSNull => js "null"
  | JSBoolean true => js "true"
  | JSBoolean false => js "false"
  | JSNumber x => NumberToString x
  | JSString s => s
  | JSArray items =>
      join_with (js ",")
        ((fix each (l : list JSValue) : list jsstring :=
            match l with
            | [] => []
            | JSUndefined :: l' => [] :: each l'
            | JSNull :: l' => [] :: each l'
            | x :: l' => ToString x :: each l'
            end) items)
  | JSObject _ => js "[object Object]"
  end.

Definition hex_digit (d : N) : N := if d <? 10 then 48 + d else 87 + d.

(** [\uXXXX] with lower-case hexadecimal digits. *)
Definition unicode_escape (c : N) : jsstring :=
  [92; 117; hex_digit ((c / 4096) mod 16); hex_digit ((c / 256) mod 16);
   hex_digit ((c / 16) mod 16); hex_digit (c mod 16)].

Definition is_high_surrogate (c : N) : bool := (55296 <=? c) && (c <=? 56319).
Definition is_low_surrogate (c : N) : bool := (56320 <=? c) && (c <=? 57343).

(** The escape of one code unit that is not part of a surrogate pair. *)
Definition quote_unit (c : N) : jsstring :=
  if c =? 8 then [92; 98]
  else if c =? 9 then [92; 116]
  else if c =? 10 then [92; 110]
  else if c =? 12 then [92; 102]
  else if c =? 13 then [92; 114]
  else if c =? 34 then [92; 34]
  else if c =? 92 then [92; 92]
  else if c <? 32 then unicode_escape c
  else if is_high_surrogate c || is_low_surrogate c then unicode_escape c
  else [c].

Fixpoint quote_units (s : jsstring) : jsstring :=
  match s with
  | [] => []
  | c :: rest =>
      if is_high_surrogate c then
        match rest with
        | d :: rest' =>
            if is_low_surrogate d then c :: d :: quote_units rest'
            else unicode_escape c ++ quote_units rest
        | [] => unicode_escape c
        end
      else quote_unit c ++ quote_units rest
  end.

(** The abstract operation QuoteJSONString. *)
Definition QuoteJSONString (s : jsstring) : jsstring :=
  [34] ++ quote_units s ++ [34].

(** SerializeJSONProperty without a replacer or an indent: [None] stands for
    the [undefined] that [JSON.stringify] returns on [undefined].  A number
    that is not finite is serialised as [null]. *)
Fixpoint SerializeJSONProperty (v : JSValue) : option jsstring :=
  match v with
  | JSUndefined => None
  | JSNull => Some (js "null")
  | JSBoolean true => Some (js "true")
  | JSBoolean false => Some (js "false")
  | JSNumber x => Some (if isFinite x then NumberToString x else js "null")
  | JSString s => Some (QuoteJSONString s)
  | JSArray items =>
      Some (js "[" ++
            join_with (js ",")
              ((fix each (l : list JSValue) : list jsstring :=
                  match l with
                  | [] => []
                  | x :: l' =>
                      match SerializeJSONProperty x with
                      | Some t => t
                      | None => js "null"
                      end :: each l'
                  end) items) ++
            js "]")
  | JSObject props =>
      Some (js "{" ++
            join_with (js ",")
              ((fix each (l : list (jsstring * JSValue)) : list jsstring :=
                  match l with
                  | [] => []
                  | (k, x) :: l' =>
                      match SerializeJSONProperty x with
                      | Some t => (QuoteJSONString k ++ js ":" ++ t) :: each l'
                      | None => each l'
                      end
                  end) props) ++
            js "}")
  end.

(** [JSON.stringify(value)] as an argument of [setAttribute]: the DOM
    converts an [undefined] argument to the text [undefined]. *)
Definition JSON_stringify (v : JSValue) : jsstring :=
  match SerializeJSONProperty v with
  | Some t => t
  | None => js "undefined"
  end.

(** ** The DOM and the plugin's state *)

(** An element handle: the identity of a DOM node. *)
Abbreviation Element := positive.

(** The attributes of one element.  [written] is a ghost field: the names
    that the plugin has set on the element and has not removed since. *)
Record HTMLElement : Type := {
  attrs : gmap jsstring jsstring;
  written : gset jsstring
}.

Definition blank_element : HTMLElement := {| attrs := ∅; written := ∅ |}.

(** [dom] holds every element; [appliedAttributes] is the plugin's
    [WeakMap<HTMLElement, string[]>]. *)
Record State : Type := {
  dom : gmap Element HTMLElement;
  appliedAttributes : gmap Element (list jsstring)
}.

Definition elem (s : State) (el : Element) : HTMLElement :=
  default blank_element (dom s !! el).

Definition set_local (name value : jsstring) (h : HTMLElement) : HTMLElement :=
  {| attrs := <[name := value]> (attrs h); written := {[name]} ∪ written h |}.

Definition remove_local (name : jsstring) (h : HTMLElement) : HTMLElement :=
  {| attrs := delete name (attrs h); written := written h ∖ {[name]} |}.

(** [element.setAttribute(name, value)].  Every name the plugin passes is
    [data-] followed by lower-case letters, digits and hyphens, so the call
    neither throws nor changes the case of the name. *)
Definition setAttribute (s : State) (el : Element) (name value : jsstring) : State :=
  {| dom := <[el := set_local name value (elem s el)]> (dom s);
     appliedAttributes := appliedAttributes s |}.

(** [element.removeAttribute(name)] *)
Definition removeAttribute (s : State) (el : Element) (name : jsstring) : State :=
  {| dom := <[el := remove_local name (elem s el)]> (dom s);
     appliedAttributes := appliedAttributes s |}.

(** [this.appliedAttributes.set(element, keys)] *)
Definition appliedAttributes_set (s : State) (el : Element) (keys : list jsstring) : State :=
  {| dom := dom s; appliedAttributes := <[el := keys]> (appliedAttributes s) |}.

(** [this.appliedAttributes.delete(element)] *)
Definition appliedAttributes_delete (s : State) (el : Element) : State :=
  {| dom := dom s; appliedAttributes := delete el (appliedAttributes s) |}.

(** ** The host application *)

Record TFile : Type := { path : jsstring }.

(** A plain object: its own enumerable properties in enumeration order. *)
Abbreviation JSObj := (list (jsstring * JSValue)).

Record CachedMetadata : Type := { frontmatter : option JSObj }.

(** [leaf.view].  [view_file] is [leaf.view.file]; [containerEl] is the
    element [part_000] writes onto, absent when [leaf.view.containerEl] is
    falsy; [querySelector_leaf_content] is the element [src/main.ts] writes
    onto, the result of
    [leaf.view.containerEl.querySelector(".workspace-leaf-content")]. *)
Record View : Type := {
  instanceof_MarkdownView : bool;
  view_file : option TFile;
  containerEl : option Element;
  querySelector_leaf_content : option Element
}.

Record WorkspaceLeaf : Type := { view : View }.

(** What the plugin reads of [this.app].  [inherited_keys] are the
    enumerable property names a plain object inherits from its prototype
    chain (none, unless [Object.prototype] was extended). *)
Record App : Type := {
  getFileCache : TFile -> option CachedMetadata;
  getLeavesOfType_markdown : list WorkspaceLeaf;
  activeLeaf : option WorkspaceLeaf;
  activeMarkdownView_leaf : option WorkspaceLeaf;
  inherited_keys : list jsstring
}.

(** [this.app.metadataCache.getFileCache(file)?.frontmatter] *)
Definition frontmatter_of (app : App) (f : TFile) : option JSObj :=
  match getFileCache app f with
  | Some cache => frontmatter cache
  | None => None
  end.

(** [Object.prototype.hasOwnProperty.call(obj, key)] *)
Definition hasOwnProperty (obj : JSObj) (key : jsstring) : bool :=
  existsb (fun p => bool_decide (fst p = key)) obj.

(** [obj[key]] for an own property. *)
Definition get_property (obj : JSObj) (key : jsstring) : JSValue :=
  match find (fun p => bool_decide (fst p = key)) obj with
  | Some p => snd p
  | None => JSUndefined
  end.

(** The keys [for (const key in obj)] visits: the own ones, then the
    inherited ones that no own property shadows. *)
Definition for_in_keys (app : App) (obj : JSObj) : list jsstring :=
  map fst obj ++ filter (fun k => negb (hasOwnProperty obj k)) (inherited_keys app).

(** [array.contains(x)], which Obsidian defines as [includes]. *)
Definition contains (l : list jsstring) (x : jsstring) : bool :=
  existsb (fun y => bool_decide (y = x)) l.

Arguments contains : simpl never.

(** ** Sequences of DOM calls

    Both revisions clear an element by a run of [removeAttribute] calls and
    fill it by a run of [setAttribute] calls.  The definitions below name
    these runs, so that each revision's loops can be compared with them. *)

(** The element after [setAttribute] for each pair, in order. *)
Definition set_all_local (ws : list (jsstring * jsstring)) (h : HTMLElement) : HTMLElement :=
  foldl (fun h w => set_local (fst w) (snd w) h) h ws.

(** The element after [removeAttribute] for each name, in order. *)
Definition remove_all_local (ns : list jsstring) (h : HTMLElement) : HTMLElement :=
  foldl (fun h n => remove_local n h) h ns.

Definition set_all (el : Element) (ws : list (jsstring * jsstring)) (s : State) : State :=
  foldl (fun s w => setAttribute s el (fst w) (snd w)) s ws.

Definition remove_all (el : Element) (ns : list jsstring) (s : State) : State :=
  foldl (fun s n => removeAttribute s el n) s ns.

(** The value a name holds after a run of writes, starting from [init]. *)
Definition final_value (ws : list (jsstring * jsstring)) (n : jsstring)
    (init : option jsstring) : option jsstring :=
  foldl (fun acc w => if decide (fst w = n) then Some (snd w) else acc) init ws.

(** Sanitised keys paired with values, as attribute names with values. *)
Definition named (kvs : list (jsstring * jsstring)) : list (jsstring * jsstring) :=
  map (fun kv => (data_ (fst kv), snd kv)) kvs.

(** The recorded keys of an element, none when it has no record. *)
Definition record (s : State) (el : Element) : list jsstring :=
  default [] (appliedAttributes s !! el).

Section Engine.

(** The attribute names that clearing leaves alone. *)
Variable protected : jsstring -> bool.

(** The attribute names that clearing [el] removes. *)
Definition cleared_names (s : State) (el : Element) : list jsstring :=
  filter (fun n => negb (protected n)) (map data_ (record s el)).

(** No write goes to a protected name. *)
Definition unprotected (kvs : list (jsstring * jsstring)) : Prop :=
  Forall (fun kv => protected (data_ (fst kv)) = false) kvs.

(** The bookkeeping invariant: on every element, the names the plugin has
    written and not removed are those of the element's record, each is
    present on the element, no recorded name is protected, and no empty
    record is kept. *)
Definition consistent (s : State) : Prop :=
  forall el,
    Forall (fun k => protected (data_ k) = false) (record s el)
    /\ written (elem s el) = list_to_set (map data_ (record s el))
    /\ appliedAttributes s !! el <> Some []
    /\ (forall n, n ∈ written (elem s el) -> is_Some (attrs (elem s el) !! n)).

(** Clear [el]: remove the recorded attributes that are not protected, then
    drop the record. *)
Definition clear_with (s : State) (el : Element) : State :=
  match appliedAttributes s !! el with
  | Some keys =>
      appliedAttributes_delete
        (remove_all el (filter (fun n => negb (protected n)) (map data_ keys)) s) el
  | None => s
  end.

(** Clear [el], write [kvs], and record the keys when there are any. *)
Definition sync_with (s : State) (el : Element) (kvs : list (jsstring * jsstring)) : State :=
  let s2 := set_all el (named kvs) (clear_with s el) in
  if (0 <? length kvs)%nat then appliedAttributes_set s2 el (map fst kvs) else s2.

(** A call of [applyAttributes] either returns at once ([None]) or
    synchronises one element with a list of keys and values. *)
Definition run_plan (s : State) (plan : option (Element * list (jsstring * jsstring))) : State :=
  match plan with
  | Some (el, kvs) => sync_with s el kvs
  | None => s
  end.

End Engine.

(** A state in which the plugin has done nothing yet: the elements carry the
    host's attributes, and the WeakMap is empty. *)
Definition initial (d : gmap Element (gmap jsstring jsstring)) : State :=
  {| dom := (fun a => {| attrs := a; written := ∅ |}) <$> d;
     appliedAttributes := ∅ |}.

(** One call of the plugin's two operations. *)
Inductive Call : Type :=
| CallApply (app : App) (file : option TFile) (leaf : option WorkspaceLeaf)
| CallClear (element : Element).

(** ** [src/unnamed/part_000] *)

Module Part000.

(** attributes set by Obsidian itself *)
Definition prohibitedAttributeNames : list jsstring :=
  [js "data-type"; js "data-mode"].

(** The body of [for (const key of addedKeys)]. *)
Fixpoint clear_loop (el : Element) (addedKeys : list jsstring) (s : State) : State :=
  match addedKeys with
  | [] => s
  | key :: rest =>
      let htmlAtrrib := data_ key in
      if contains prohibitedAttributeNames htmlAtrrib
      then clear_loop el rest s
      else clear_loop el rest (removeAttribute s el htmlAtrrib)
  end.

Definition clearAttributes (s : State) (element : Element) : State :=
  match appliedAttributes s !! element with
  | Some addedKeys => appliedAttributes_delete (clear_loop element addedKeys s) element
  | None => s
  end.

Definition processedValue (value : JSValue) : jsstring :=
  if JSType_eqb (typeof value) TObject
  then JSON_stringify value
  else ToString value.

(** The body of [for (const key in frontmatter)], threading the element's
    state and [newKeys]. *)
Fixpoint apply_loop (frontmatter : JSObj) (el : Element) (keys : list jsstring)
    (s : State) (newKeys : list jsstring) : State * list jsstring :=
  match keys with
  | [] => (s, newKeys)
  | key :: rest =>
      if negb (hasOwnProperty frontmatter key)
      then apply_loop frontmatter el rest s newKeys
      else
        let value := get_property frontmatter key in
        let htmlAtrrib := data_ (attributeKey key) in
        if contains prohibitedAttributeNames htmlAtrrib
        then apply_loop frontmatter el rest s newKeys
        else apply_loop frontmatter el rest
               (setAttribute s el htmlAtrrib (processedValue value))
               (newKeys ++ [attributeKey key])
  end.

Definition applyAttributes (app : App) (s : State)
    (file : option TFile) (leaf : option WorkspaceLeaf) : State :=
  match file, leaf with
  | Some f, Some l =>
      match containerEl (view l) with
      | None => s
      | Some leafContentEl =>
          let s1 := clearAttributes s leafContentEl in
          match frontmatter_of app f with
          | None => s1
          | Some frontmatter =>
              let '(s2, newKeys) :=
                apply_loop frontmatter leafContentEl
                  (for_in_keys app frontmatter) s1 [] in
              if (0 <? length newKeys)%nat
              then appliedAttributes_set s2 leafContentEl newKeys
              else s2
          end
      end
  | _, _ => s
  end.

Definition handleFileOpen (app : App) (s : State) (file : option TFile) : State :=
  match file, activeMarkdownView_leaf app with
  | Some f, Some l => applyAttributes app s (Some f) (Some l)
  | _, _ => s
  end.

Definition handleMetadataChange (app : App) (s : State) (file : TFile) : State :=
  foldl (fun s leaf =>
           if negb (instanceof_MarkdownView (view leaf)) then s
           else match view_file (view leaf) with
                | Some f =>
                    if bool_decide (path f = path file)
                    then applyAttributes app s (Some file) (Some leaf)
                    else s
                | None => s
                end)
        s (getLeavesOfType_markdown app).

Definition onLayoutReady (app : App) (s : State) : State :=
  foldl (fun s leaf =>
           if negb (instanceof_MarkdownView (view leaf)) then s
           else match view_file (view leaf) with
                | Some f => applyAttributes app s (Some f) (Some leaf)
                | None => s
                end)
        s (getLeavesOfType_markdown app).

Definition onunload (app : App) (s : State) : State :=
  foldl (fun s leaf =>
           match containerEl (view leaf) with
           | Some leafContentEl => clearAttributes s leafContentEl
           | None => s
           end)
        s (getLeavesOfType_markdown app).

(** *** The calls of a run of [applyAttributes]

    What follows is not in the source: it names the [setAttribute] calls
    that the loop above makes, and the sequences of calls that the
    invariants are stated over. *)

(** The keys that [apply_loop] does not skip. *)
Definition applies (frontmatter : JSObj) (key : jsstring) : bool :=
  hasOwnProperty frontmatter key
  && negb (contains prohibitedAttributeNames (data_ (attributeKey key))).

(** The sanitised key and the value of every [setAttribute] call that
    [apply_loop] makes over [keys], in order. *)
Definition writes (frontmatter : JSObj) (keys : list jsstring) : list (jsstring * jsstring) :=
  flat_map (fun key =>
              if negb (hasOwnProperty frontmatter key) then []
              else if contains prohibitedAttributeNames (data_ (attributeKey key)) then []
              else [(attributeKey key, processedValue (get_property frontmatter key))])
           keys.

(** The element a call of [applyAttributes] works on and what it writes
    there; [None] when the call returns before clearing. *)
Definition plan (app : App) (file : option TFile) (leaf : option WorkspaceLeaf)
    : option (Element * list (jsstring * jsstring)) :=
  match file, leaf with
  | Some f, Some l =>
      match containerEl (view l) with
      | None => None
      | Some el =>
          match frontmatter_of app f with
          | None => Some (el, [])
          | Some frontmatter => Some (el, writes frontmatter (for_in_keys app frontmatter))
          end
      end
  | _, _ => None
  end.

Definition run_call (s : State) (c : Call) : State :=
  match c with
  | CallApply app file leaf => applyAttributes app s file leaf
  | CallClear element => clearAttributes s element
  end.

Definition run (calls : list Call) (s : State) : State := foldl run_call s calls.

End Part000.

(** ** [src/src/main.ts] *)

Module SrcMain.

(** The body of [oldKeys.forEach((key) => ...)]. *)
Fixpoint clear_loop (el : Element) (oldKeys : list jsstring) (s : State) : State :=
  match oldKeys with
  | [] => s
  | key :: rest => clear_loop el rest (removeAttribute s el (data_ key))
  end.

Definition clearAttributes (s : State) (element : Element) : State :=
  match appliedAttributes s !! element with
  | Some oldKeys => appliedAttributes_delete (clear_loop element oldKeys s) element
  | None => s
  end.

Definition is_null (v : JSValue) : bool :=
  match v with JSNull => true | _ => false end.

Definition processedValue (value : JSValue) : jsstring :=
  if JSType_eqb (typeof value) TString
     || JSType_eqb (typeof value) TNumber
     || JSType_eqb (typeof value) TBoolean
  then ToString value
  else if negb (is_null value) && JSType_eqb (typeof value) TObject
  then JSON_stringify value
  else ToString value.

(** [const { position, ...restFrontmatter } = frontmatter]: the own
    enumerable properties other than [position], copied in order. *)
Definition restFrontmatter (frontmatter : JSObj) : JSObj :=
  filter (fun p => negb (bool_decide (fst p = js "position"))) frontmatter.

(** The body of [for (const key in restFrontmatter)]. *)
Fixpoint apply_loop (rest_fm : JSObj) (el : Element) (keys : list jsstring)
    (s : State) (newKeys : list jsstring) : State * list jsstring :=
  match keys with
  | [] => (s, newKeys)
  | key :: rest =>
      if hasOwnProperty rest_fm key
      then
        let value := get_property rest_fm key in
        apply_loop rest_fm el rest
          (setAttribute s el (data_ (attributeKey key)) (processedValue value))
          (newKeys ++ [attributeKey key])
      else apply_loop rest_fm el rest s newKeys
  end.

(** [leaf.view.containerEl] is dereferenced without a check, as its type
    [HTMLElement] allows; only the result of [querySelector] is tested. *)
Definition applyAttributes (app : App) (s : State)
    (file : option TFile) (leaf : option WorkspaceLeaf) : State :=
  match file, leaf with
  | Some f, Some l =>
      match querySelector_leaf_content (view l) with
      | None => s
      | Some leafContentEl =>
          let s1 := clearAttributes s leafContentEl in
          match frontmatter_of app f with
          | None => s1
          | Some frontmatter =>
              let rest_fm := restFrontmatter frontmatter in
              let '(s2, newKeys) :=
                apply_loop rest_fm leafContentEl (for_in_keys app rest_fm) s1 [] in
              if (0 <? length newKeys)%nat
              then appliedAttributes_set s2 leafContentEl newKeys
              else s2
          end
      end
  | _, _ => s
  end.

Definition handleFileOpen (app : App) (s : State) (file : option TFile) : State :=
  match file, activeLeaf app with
  | Some f, Some l => applyAttributes app s (Some f) (Some l)
  | _, _ => s
  end.

Definition handleMetadataChange (app : App) (s : State) (file : TFile) : State :=
  foldl (fun s leaf =>
           if negb (instanceof_MarkdownView (view leaf)) then s
           else match view_file (view leaf) with
                | Some f =>
                    if bool_decide (path f = path file)
                    then applyAttributes app s (Some file) (Some leaf)
                    else s
                | None => s
                end)
        s (getLeavesOfType_markdown app).

Definition onLayoutReady (app : App) (s : State) : State :=
  foldl (fun s leaf =>
           if negb (instanceof_MarkdownView (view leaf)) then s
           else match view_file (view leaf) with
                | Some f => applyAttributes app s (Some f) (Some leaf)
                | None => s
                end)
        s (getLeavesOfType_markdown app).

Definition onunload (app : App) (s : State) : State :=
  foldl (fun s leaf =>
           match querySelector_leaf_content (view leaf) with
           | Some leafContentEl => clearAttributes s leafContentEl
           | None => s
           end)
        s (getLeavesOfType_markdown app).

(** *** The calls of a run of [applyAttributes]

    What follows is not in the source: it names the [setAttribute] calls
    that the loop above makes, and the sequences of calls that the
    invariants are stated over. *)

(** The sanitised key and the value of every [setAttribute] call that
    [apply_loop] makes over [keys], in order. *)
Definition writes (rest_fm : JSObj) (keys : list jsstring) : list (jsstring * jsstring) :=
  flat_map (fun key =>
              if hasOwnProperty rest_fm key
              then [(attributeKey key, processedValue (get_property rest_fm key))]
              else [])
           keys.

(** The element a call of [applyAttributes] works on and what it writes
    there; [None] when the call returns before clearing. *)
Definition plan (app : App) (file : option TFile) (leaf : option WorkspaceLeaf)
    : option (Element * list (jsstring * jsstring)) :=
  match file, leaf with
  | Some f, Some l =>
      match querySelector_leaf_content (view l) with
      | None => None
      | Some el =>
          match frontmatter_of app f with
          | None => Some (el, [])
          | Some frontmatter =>
              Some (el, writes (restFrontmatter frontmatter)
                          (for_in_keys app (restFrontmatter frontmatter)))
          end
      end
  | _, _ => None
  end.

Definition run_call (s : State) (c : Call) : State :=
  match c with
  | CallApply app file leaf => applyAttributes app s file leaf
  | CallClear element => clearAttributes s element
  end.

Definition run (calls : list Call) (s : State) : State := foldl run_call s calls.

End SrcMain.

(** ** Statements about elements *)

(** The plugin's bookkeeping is exact on [el]: the names it has written and
    not removed are those of the record, each of them is an attribute of
    the element, and no empty record is kept. *)
Definition bookkeeping_exact (s : State) (el : Element) : Prop :=
  written (elem s el) = list_to_set (map data_ (record s el))
  /\ appliedAttributes s !! el <> Some []
  /\ (forall n, n ∈ written (elem s el) -> is_Some (attrs (elem s el) !! n)).

(** The record that a call leaves for the keys it applied. *)
Definition record_of_keys (keys : list jsstring) : option (list jsstring) :=
  match keys with
  | [] => None
  | _ => Some keys
  end.

(** The attribute [n] was neither written nor removed between [h] and [h']:
    it has the value it had, and it is in the written set exactly if it
    was. *)
Definition untouched (n : jsstring) (h h' : HTMLElement) : Prop :=
  attrs h' !! n = attrs h !! n /\ (n ∈ written h' <-> n ∈ written h).

(** Nothing was written between [h] and [h']: every attribute is gone or
    as it was, and the written set did not grow. *)
Definition nothing_written (h h' : HTMLElement) : Prop :=
  (forall n, attrs h' !! n = None \/ attrs h' !! n = attrs h !! n)
  /\ written h' ⊆ written h.

(** The element [e] carries exactly what a synchronisation with [kvs]
    leaves: the record of the keys, the written names, and for each of them
    the value of the last write. *)
Definition mirrors (kvs : list (jsstring * jsstring)) (s : State) (e : Element) : Prop :=
  appliedAttributes s !! e = record_of_keys (map fst kvs)
  /\ written (elem s e) = list_to_set (map data_ (map fst kvs))
  /\ (forall n, n ∈ written (elem s e) ->
                attrs (elem s e) !! n = final_value (named kvs) n None).

(** Two elements carry the same attributes of the plugin's: the same
    record, the same written names, and the same value under each. *)
Definition same_system_attributes (s : State) (e1 e2 : Element) : Prop :=
  appliedAttributes s !! e1 = appliedAttributes s !! e2
  /\ written (elem s e1) = written (elem s e2)
  /\ (forall n, n ∈ written (elem s e1) ->
                attrs (elem s e1) !! n = attrs (elem s e2) !! n).

(** [leaf] is a markdown view that shows a document with the path of
    [file]: the test of [handleMetadataChange]. *)
Definition shows (file : TFile) (leaf : WorkspaceLeaf) : bool :=
  instanceof_MarkdownView (view leaf)
  && match view_file (view leaf) with
     | Some f => bool_decide (path f = path file)
     | None => false
     end.

(** The serialisation as the specification words it: the text of a
    string, number or boolean, JSON for an array or an object, and the
    engine's text for [null] and [undefined]. *)
Definition spec_serialize (v : JSValue) : jsstring :=
  match v with
  | JSString s => s
  | JSNumber x => NumberToString x
  | JSBoolean true => js "true"
  | JSBoolean false => js "false"
  | JSArray _ => JSON_stringify v
  | JSObject _ => JSON_stringify v
  | JSNull => js "null"
  | JSUndefined => js "undefined"
  end.

(** ** Concrete inputs *)

Definition el1 : Element := 1%positive.
Definition el2 : Element := 2%positive.

Definition note : TFile := {| path := js "note.md" |}.

(** A markdown view of [note] whose container and leaf content are [el]. *)
Definition leaf_on (el : Element) : WorkspaceLeaf :=
  {| view := {| instanceof_MarkdownView := true;
                view_file := Some note;
                containerEl := Some el;
                querySelector_leaf_content := Some el |} |}.

(** An application whose metadata cache answers [fm] for every file. *)
Definition app_with (fm : option JSObj) (leaves : list WorkspaceLeaf) : App :=
  {| getFileCache := fun _ => Some {| frontmatter := fm |};
     getLeavesOfType_markdown := leaves;
     activeLeaf := None;
     activeMarkdownView_leaf := None;
     inherited_keys := [] |}.

(** An element that carries the host's own attributes. *)
Definition host_dom : gmap Element (gmap jsstring jsstring) :=
  {[ el1 := {[ js "class" := js "workspace-leaf-content";
               js "data-type" := js "markdown";
               js "data-mode" := js "source" ]} ]}.

(** The state after [My Tag: x] was applied to [el1]. *)
Definition tagged_frontmatter : JSObj := [(js "My Tag", JSString (js "x"))].

Definition tagged_state : State :=
  Part000.applyAttributes (app_with (Some tagged_frontmatter) []) (initial host_dom)
    (Some note) (Some (leaf_on el1)).

(** A snapshot with no key named [my-tag], one of whose keys sanitises to it. *)
Definition retagged_frontmatter : JSObj := [(js "my tag", JSString (js "y"))].

(** Two keys that sanitise to the reserved name [type]. *)
Definition type_frontmatter : JSObj :=
  [(js "type", JSString (js "a")); (js "Type", JSString (js "b"))].

(** Two keys that sanitise to [due-date]. *)
Definition colliding_frontmatter : JSObj :=
  [(js "Due Date", JSNumber (int 1)); (js "due_date", JSNumber (int 2))].

(** An application in which [l] is the only leaf and has the focus. *)
Definition app_focused (fm : option JSObj) (l : WorkspaceLeaf) : App :=
  {| getFileCache := fun _ => Some {| frontmatter := fm |};
     getLeavesOfType_markdown := [l];
     activeLeaf := Some l;
     activeMarkdownView_leaf := Some l;
     inherited_keys := [] |}.

(** A snapshot with the [position] object that the metadata engine adds. *)
Definition positioned_frontmatter : JSObj :=
  [(js "position", JSObject [(js "start", JSNumber (int 0)); (js "end", JSNumber (int 4))]);
   (js "tags", JSArray [JSString (js "travel")])].

(** The frontmatter of the README's example. *)
Definition readme_frontmatter : JSObj :=
  [(js "tags", JSArray [JSString (js "travel"); JSString (js "asia")]);
   (js "start", JSString (js "2025-10-27"));
   (js "end", JSNull);
   (js "insurance", JSBoolean true)].

(** [["travel","asia"]] as JSON text. *)
Definition travel_asia_json : jsstring :=
  [91; 34] ++ js "travel" ++ [34; 44; 34] ++ js "asia" ++ [34; 93].


(** U+212A KELVIN SIGN as a one-unit key. *)
Definition kelvin_key : jsstring := [8490].





(** ** Statements about runs, sweeps and the two revisions *)

(** A code unit of a sanitised key: a lower-case ASCII letter, a digit or a
    hyphen. *)
Definition sanitized_unit (c : N) : bool :=
  is_ascii_lower c || is_ascii_digit c || (c =? hyphen).

(** The attribute name begins with [data-]. *)
Definition starts_with_data (n : jsstring) : bool :=
  bool_decide (take 5 n = js "data-").

(** What a call of [applyAttributes] of [part_000] writes for [f]: the
    writes of its loop over the frontmatter, nothing when there is none. *)
Definition part000_writes_of_file (app : App) (f : TFile) : list (jsstring * jsstring) :=
  match frontmatter_of app f with
  | Some fm => Part000.writes fm (for_in_keys app fm)
  | None => []
  end.

(** The same for [src/main.ts]. *)
Definition srcmain_writes_of_file (app : App) (f : TFile) : list (jsstring * jsstring) :=
  match frontmatter_of app f with
  | Some fm =>
      SrcMain.writes (SrcMain.restFrontmatter fm)
        (for_in_keys app (SrcMain.restFrontmatter fm))
  | None => []
  end.

(** The element [el] and its record are in [s'] what they are in [s]. *)
Definition same_element (s s' : State) (el : Element) : Prop :=
  elem s' el = elem s el
  /\ appliedAttributes s' !! el = appliedAttributes s !! el.

(** * Properties *)

(** ** The JavaScript model on small inputs *)

Example sanitize_my_tag : attributeKey (js "My Tag!") = js "my-tag-".
Proof. reflexivity. Qed.

Example sanitize_keeps_digits_and_hyphens :
  attributeKey (js "Due_Date-2") = js "due-date-2".
Proof. reflexivity. Qed.

(** A character outside the Basic Multilingual Plane is two code units,
    and each becomes a hyphen. *)
Example sanitize_surrogate_pair : attributeKey [55357; 56832] = js "--".
Proof. reflexivity. Qed.

Example number_to_string :
  ToString (JSNumber (int 27)) = js "27" /\ ToString (JSNumber (int (-305))) = js "-305"
  /\ ToString (JSNumber (int 0)) = js "0".
Proof. repeat split. Qed.

Example array_to_string :
  ToString (JSArray [JSNumber (int 1); JSNull; JSString (js "a")]) = js "1,,a".
Proof. reflexivity. Qed.

Example stringify_tags :
  JSON_stringify (JSArray [JSString (js "travel"); JSString (js "asia")])
  = travel_asia_json.
Proof. reflexivity. Qed.

(** An object with an array inside; an [undefined] property is left out. *)
Example stringify_object :
  JSON_stringify
    (JSObject [(js "a", JSArray [JSNumber (int 1); JSBoolean true; JSNull]);
               (js "b", JSUndefined)])
  = [123; 34; 97; 34; 58] ++ js "[1,true,null]" ++ [125].
Proof. reflexivity. Qed.

(** A quote, a backslash and a line feed inside a string. *)
Example quote_escapes :
  QuoteJSONString [97; 34; 92; 10] = [34; 97; 92; 34; 92; 92; 92; 110; 34].
Proof. reflexivity. Qed.

Example null_is_an_object :
  Part000.processedValue JSNull = js "null"
  /\ SrcMain.processedValue JSNull = js "null"
  /\ Part000.processedValue JSUndefined = js "undefined".
Proof. repeat split. Qed.

(** ** Elements under runs of writes and removals *)

Lemma state_eq (s1 s2 : State) :
  dom s1 = dom s2 -> appliedAttributes s1 = appliedAttributes s2 -> s1 = s2.
Proof. destruct s1, s2; simpl; congruence. Qed.

Lemma element_eq (h1 h2 : HTMLElement) :
  attrs h1 = attrs h2 -> written h1 = written h2 -> h1 = h2.
Proof. destruct h1, h2; simpl; congruence. Qed.

Lemma final_value_notin ws n i : n ∉ map fst ws -> final_value ws n i = i.
Proof.
  revert i; induction ws as [|w ws IH]; intros i Hn; [done|].
  simpl in *. apply not_elem_of_cons in Hn as [Hne Hn].
  unfold final_value in *; simpl. rewrite decide_False by congruence. by apply IH.
Qed.

Lemma final_value_in ws n i j : n ∈ map fst ws -> final_value ws n i = final_value ws n j.
Proof.
  revert i j; induction ws as [|w ws IH]; intros i j Hn; [by apply elem_of_nil in Hn|].
  unfold final_value in *; simpl.
  destruct (decide (fst w = n)) as [_|Hne]; [done|].
  simpl in Hn. apply elem_of_cons in Hn as [Hn|Hn]; [congruence|]. by apply IH.
Qed.

Lemma final_value_is_Some ws n i : n ∈ map fst ws -> is_Some (final_value ws n i).
Proof.
  revert i; induction ws as [|w ws IH] using rev_ind; intros i Hn.
  - by apply elem_of_nil in Hn.
  - unfold final_value in *. rewrite foldl_app. simpl.
    destruct (decide (fst w = n)); [by eexists|].
    rewrite map_app in Hn. apply elem_of_app in Hn as [Hn|Hn]; [by apply IH|].
    simpl in Hn. apply list_elem_of_singleton in Hn. congruence.
Qed.

Lemma attrs_set_all_local ws h n :
  attrs (set_all_local ws h) !! n = final_value ws n (attrs h !! n).
Proof.
  revert h; induction ws as [|w ws IH]; intros h; [done|].
  unfold set_all_local, final_value in *; simpl. rewrite IH. simpl.
  destruct (decide (fst w = n)) as [->|Hne].
  - by rewrite lookup_insert_eq.
  - by rewrite lookup_insert_ne.
Qed.

Lemma written_set_all_local ws h :
  written (set_all_local ws h) = list_to_set (map fst ws) ∪ written h.
Proof.
  revert h; induction ws as [|w ws IH]; intros h.
  - simpl. set_solver.
  - unfold set_all_local in *; simpl. rewrite IH. simpl. set_solver.
Qed.

Lemma attrs_remove_all_local ns h n :
  attrs (remove_all_local ns h) !! n = if decide (n ∈ ns) then None else attrs h !! n.
Proof.
  revert h; induction ns as [|m ns IH]; intros h.
  - destruct (decide (n ∈ [])) as [H|H]; [by apply elem_of_nil in H|done].
  - unfold remove_all_local in *; simpl. rewrite IH. simpl.
    destruct (decide (n ∈ ns)) as [Hin|Hin].
    + rewrite decide_True; [done|]. by right.
    + destruct (decide (m = n)) as [->|Hne].
      * rewrite lookup_delete_eq. rewrite decide_True; [done|]. by left.
      * rewrite lookup_delete_ne by done. rewrite decide_False; [done|].
        intros [?|?]%elem_of_cons; congruence.
Qed.

Lemma written_remove_all_local ns h :
  written (remove_all_local ns h) = written h ∖ list_to_set ns.
Proof.
  revert h; induction ns as [|m ns IH]; intros h.
  - simpl. set_solver.
  - unfold remove_all_local in *; simpl. rewrite IH. simpl. set_solver.
Qed.

(** ** States under runs of writes and removals *)

Lemma elem_setAttribute s el n v el' :
  elem (setAttribute s el n v) el'
  = if decide (el' = el) then set_local n v (elem s el) else elem s el'.
Proof.
  unfold elem at 1, setAttribute; simpl. case_decide as H.
  - subst. by rewrite lookup_insert_eq.
  - by rewrite lookup_insert_ne.
Qed.

Lemma elem_removeAttribute s el n el' :
  elem (removeAttribute s el n) el'
  = if decide (el' = el) then remove_local n (elem s el) else elem s el'.
Proof.
  unfold elem at 1, removeAttribute; simpl. case_decide as H.
  - subst. by rewrite lookup_insert_eq.
  - by rewrite lookup_insert_ne.
Qed.

Lemma elem_set_all el ws s el' :
  elem (set_all el ws s) el'
  = if decide (el' = el) then set_all_local ws (elem s el) else elem s el'.
Proof.
  revert s; induction ws as [|w ws IH]; intros s.
  - simpl. by case_decide; subst.
  - unfold set_all, set_all_local in *; simpl. rewrite IH, !elem_setAttribute.
    destruct (decide (el' = el)); [|done]. by rewrite decide_True.
Qed.

Lemma elem_remove_all el ns s el' :
  elem (remove_all el ns s) el'
  = if decide (el' = el) then remove_all_local ns (elem s el) else elem s el'.
Proof.
  revert s; induction ns as [|n ns IH]; intros s.
  - simpl. by case_decide; subst.
  - unfold remove_all, remove_all_local in *; simpl. rewrite IH, !elem_removeAttribute.
    destruct (decide (el' = el)); [|done]. by rewrite decide_True.
Qed.

Lemma applied_set_all el ws s :
  appliedAttributes (set_all el ws s) = appliedAttributes s.
Proof. revert s; induction ws as [|w ws IH]; intros s; [done|]. unfold set_all in *; simpl. by rewrite IH. Qed.

Lemma applied_remove_all el ns s :
  appliedAttributes (remove_all el ns s) = appliedAttributes s.
Proof. revert s; induction ns as [|n ns IH]; intros s; [done|]. unfold remove_all in *; simpl. by rewrite IH. Qed.

Lemma dom_set_all el ws s :
  ws ≠ [] -> dom (set_all el ws s) = <[el := set_all_local ws (elem s el)]> (dom s).
Proof.
  revert s; induction ws as [|w ws IH]; intros s Hne; [done|].
  destruct ws as [|w' ws]; [done|].
  change (set_all el (w :: w' :: ws) s)
    with (set_all el (w' :: ws) (setAttribute s el (fst w) (snd w))).
  rewrite IH by done. rewrite elem_setAttribute, decide_True by done.
  simpl. by rewrite insert_insert_eq.
Qed.

Lemma dom_remove_all el ns s :
  ns ≠ [] -> dom (remove_all el ns s) = <[el := remove_all_local ns (elem s el)]> (dom s).
Proof.
  revert s; induction ns as [|n ns IH]; intros s Hne; [done|].
  destruct ns as [|n' ns]; [done|].
  change (remove_all el (n :: n' :: ns) s)
    with (remove_all el (n' :: ns) (removeAttribute s el n)).
  rewrite IH by done. rewrite elem_removeAttribute, decide_True by done.
  simpl. by rewrite insert_insert_eq.
Qed.

(** ** Each revision's loops as runs of DOM calls *)

Lemma sync_with_nil protected s el : sync_with protected s el [] = clear_with protected s el.
Proof. reflexivity. Qed.

Lemma part000_clear_loop_eq el keys s :
  Part000.clear_loop el keys s
  = remove_all el
      (filter (fun n => negb (contains Part000.prohibitedAttributeNames n)) (map data_ keys)) s.
Proof.
  revert s; induction keys as [|key keys IH]; intros s; [done|].
  cbn [Part000.clear_loop map]. rewrite filter_cons.
  destruct (contains Part000.prohibitedAttributeNames (data_ key)) eqn:E.
  - rewrite decide_False by (simpl; tauto). apply IH.
  - rewrite decide_True by (simpl; tauto). rewrite IH. done.
Qed.

Lemma part000_clearAttributes_eq s el :
  Part000.clearAttributes s el = clear_with (contains Part000.prohibitedAttributeNames) s el.
Proof.
  unfold Part000.clearAttributes, clear_with.
  destruct (appliedAttributes s !! el); [|done]. by rewrite part000_clear_loop_eq.
Qed.

Lemma part000_apply_loop_eq fm el keys s newKeys :
  Part000.apply_loop fm el keys s newKeys
  = (set_all el (named (Part000.writes fm keys)) s,
     newKeys ++ map fst (Part000.writes fm keys)).
Proof.
  revert s newKeys; induction keys as [|key keys IH]; intros s newKeys.
  - simpl. by rewrite app_nil_r.
  - cbn [Part000.apply_loop Part000.writes flat_map].
    destruct (negb (hasOwnProperty fm key)); [apply IH|].
    destruct (contains Part000.prohibitedAttributeNames (data_ (attributeKey key)));
      [apply IH|].
    rewrite IH. cbn [app named map fst snd set_all foldl].
    by rewrite <- app_assoc.
Qed.

Lemma part000_applyAttributes_eq app s file leaf :
  Part000.applyAttributes app s file leaf
  = run_plan (contains Part000.prohibitedAttributeNames) s (Part000.plan app file leaf).
Proof.
  unfold Part000.applyAttributes, Part000.plan.
  destruct file as [f|], leaf as [l|]; try done.
  destruct (containerEl (view l)) as [el|]; [|done].
  destruct (frontmatter_of app f) as [fm|]; cbn [run_plan].
  - rewrite part000_apply_loop_eq, app_nil_l. unfold sync_with.
    by rewrite part000_clearAttributes_eq, length_map.
  - by rewrite sync_with_nil, part000_clearAttributes_eq.
Qed.

Lemma srcmain_clear_loop_eq el keys s :
  SrcMain.clear_loop el keys s
  = remove_all el (filter (fun n => negb ((fun _ => false) n)) (map data_ keys)) s.
Proof.
  revert s; induction keys as [|key keys IH]; intros s; [done|].
  cbn [SrcMain.clear_loop map]. rewrite filter_cons.
  rewrite decide_True by (simpl; tauto). by rewrite IH.
Qed.

Lemma srcmain_clearAttributes_eq s el :
  SrcMain.clearAttributes s el = clear_with (fun _ => false) s el.
Proof.
  unfold SrcMain.clearAttributes, clear_with.
  destruct (appliedAttributes s !! el); [|done]. by rewrite srcmain_clear_loop_eq.
Qed.

Lemma srcmain_apply_loop_eq fm el keys s newKeys :
  SrcMain.apply_loop fm el keys s newKeys
  = (set_all el (named (SrcMain.writes fm keys)) s,
     newKeys ++ map fst (SrcMain.writes fm keys)).
Proof.
  revert s newKeys; induction keys as [|key keys IH]; intros s newKeys.
  - simpl. by rewrite app_nil_r.
  - cbn [SrcMain.apply_loop SrcMain.writes flat_map].
    destruct (hasOwnProperty fm key); [|apply IH].
    rewrite IH. cbn [app named map fst snd set_all foldl].
    by rewrite <- app_assoc.
Qed.

Lemma srcmain_applyAttributes_eq app s file leaf :
  SrcMain.applyAttributes app s file leaf
  = run_plan (fun _ => false) s (SrcMain.plan app file leaf).
Proof.
  unfold SrcMain.applyAttributes, SrcMain.plan.
  destruct file as [f|], leaf as [l|]; try done.
  destruct (querySelector_leaf_content (view l)) as [el|]; [|done].
  destruct (frontmatter_of app f) as [fm|]; cbn [run_plan].
  - cbv zeta. rewrite srcmain_apply_loop_eq, app_nil_l. unfold sync_with.
    by rewrite srcmain_clearAttributes_eq, length_map.
  - by rewrite sync_with_nil, srcmain_clearAttributes_eq.
Qed.

(** ** Clearing and synchronising one element *)

Lemma applied_appliedAttributes_set s el ks :
  appliedAttributes (appliedAttributes_set s el ks) = <[el := ks]> (appliedAttributes s).
Proof. reflexivity. Qed.

Lemma dom_appliedAttributes_set s el ks : dom (appliedAttributes_set s el ks) = dom s.
Proof. reflexivity. Qed.

Lemma resync_local ws h :
  set_all_local ws (remove_all_local (map fst ws) (set_all_local ws h))
  = set_all_local ws h.
Proof.
  apply element_eq.
  - apply map_eq; intros n.
    rewrite !attrs_set_all_local, attrs_remove_all_local, attrs_set_all_local.
    destruct (decide (n ∈ map fst ws)) as [Hin|Hin].
    + by apply final_value_in.
    + by rewrite !(final_value_notin _ _ _ Hin).
  - rewrite !written_set_all_local, written_remove_all_local, written_set_all_local.
    generalize (list_to_set (map fst ws) : gset jsstring), (written h).
    intros X Y. apply set_eq; intros n.
    rewrite !elem_of_union, elem_of_difference, elem_of_union.
    destruct (decide (n ∈ X)); tauto.
Qed.

Lemma map_fst_named kvs : map fst (named kvs) = map data_ (map fst kvs).
Proof. unfold named. rewrite !map_map. done. Qed.

Lemma data_inj k1 k2 : data_ k1 = data_ k2 -> k1 = k2.
Proof. unfold data_. apply app_inv_head. Qed.

Section EngineFacts.

Variable protected : jsstring -> bool.

Local Abbreviation clear_with := (clear_with protected).
Local Abbreviation sync_with := (sync_with protected).
Local Abbreviation cleared_names := (cleared_names protected).
Local Abbreviation unprotected := (unprotected protected).
Local Abbreviation consistent := (consistent protected).

Lemma cleared_names_all keys :
  Forall (fun k => protected (data_ k) = false) keys ->
  filter (fun n => negb (protected n)) (map data_ keys) = map data_ keys.
Proof.
  induction 1 as [|k keys Hk _ IH]; [done|].
  cbn [map]. rewrite filter_cons_True by (rewrite Hk; done). by rewrite IH.
Qed.

Lemma elem_of_cleared_names s el n :
  n ∈ cleared_names s el <-> protected n = false /\ n ∈ map data_ (record s el).
Proof.
  unfold cleared_names. rewrite list_elem_of_filter.
  destruct (protected n); simpl; intuition congruence.
Qed.

Lemma applied_clear_with s el :
  appliedAttributes (clear_with s el) = delete el (appliedAttributes s).
Proof.
  unfold clear_with. destruct (appliedAttributes s !! el) eqn:E.
  - simpl. by rewrite applied_remove_all.
  - by rewrite delete_id.
Qed.

Lemma elem_clear_with s el el' :
  elem (clear_with s el) el'
  = if decide (el' = el) then remove_all_local (cleared_names s el) (elem s el)
    else elem s el'.
Proof.
  unfold clear_with, cleared_names, record.
  destruct (appliedAttributes s !! el) eqn:E; simpl.
  - change (elem (appliedAttributes_delete ?s0 el) el') with (elem s0 el').
    apply elem_remove_all.
  - by case_decide; subst.
Qed.

Lemma insert_dom_clear_with s el h :
  <[el := h]> (dom (clear_with s el)) = <[el := h]> (dom s).
Proof.
  unfold clear_with. destruct (appliedAttributes s !! el) as [keys|]; [|done].
  simpl. destruct (filter _ (map data_ keys)) as [|n ns] eqn:E; [done|].
  rewrite dom_remove_all by done. apply insert_insert_eq.
Qed.

Lemma clear_with_no_record s el :
  appliedAttributes s !! el = None -> clear_with s el = s.
Proof. intros H. unfold clear_with. by rewrite H. Qed.

Lemma applied_sync_with s el kvs :
  appliedAttributes (sync_with s el kvs)
  = match kvs with
    | [] => delete el (appliedAttributes s)
    | _ => <[el := map fst kvs]> (appliedAttributes s)
    end.
Proof.
  unfold sync_with. destruct kvs as [|kv kvs].
  - simpl. apply applied_clear_with.
  - cbn [length Nat.ltb Nat.leb].
    rewrite applied_appliedAttributes_set, applied_set_all, applied_clear_with.
    apply insert_delete_eq.
Qed.

Lemma elem_sync_with s el kvs el' :
  elem (sync_with s el kvs) el'
  = if decide (el' = el)
    then set_all_local (named kvs) (remove_all_local (cleared_names s el) (elem s el))
    else elem s el'.
Proof.
  unfold sync_with.
  assert (elem (set_all el (named kvs) (clear_with s el)) el'
          = if decide (el' = el)
            then set_all_local (named kvs)
                   (remove_all_local (cleared_names s el) (elem s el))
            else elem s el') as H.
  { rewrite elem_set_all, !elem_clear_with. destruct (decide (el' = el)); [|done].
    by rewrite decide_True. }
  destruct (0 <? length kvs)%nat; [|done].
  by change (elem (appliedAttributes_set ?s0 el ?ks) el') with (elem s0 el').
Qed.

Lemma record_sync_with s el kvs el' :
  record (sync_with s el kvs) el' = if decide (el' = el) then map fst kvs else record s el'.
Proof.
  unfold record. rewrite applied_sync_with. destruct kvs as [|kv kvs].
  - destruct (decide (el' = el)) as [->|Hne].
    + by rewrite lookup_delete_eq.
    + by rewrite lookup_delete_ne.
  - destruct (decide (el' = el)) as [->|Hne].
    + by rewrite lookup_insert_eq.
    + by rewrite lookup_insert_ne.
Qed.

(** Synchronising twice with the same writes is synchronising once. *)
Lemma sync_with_idempotent s el kvs :
  unprotected kvs -> sync_with (sync_with s el kvs) el kvs = sync_with s el kvs.
Proof.
  intros Hun. destruct kvs as [|kv kvs].
  - rewrite !sync_with_nil. apply clear_with_no_record.
    rewrite applied_clear_with. apply lookup_delete_eq.
  - set (ws := kv :: kvs) in *. apply state_eq.
    + assert (forall s0, dom (sync_with s0 el ws)
                = <[el := set_all_local (named ws) (elem (clear_with s0 el) el)]> (dom s0))
        as Hdom.
      { intros s0. unfold sync_with. cbn [ws length Nat.ltb Nat.leb]. fold ws.
        rewrite dom_appliedAttributes_set, dom_set_all by done.
        apply insert_dom_clear_with. }
      rewrite (Hdom (sync_with s el ws)), (Hdom s), insert_insert_eq.
      f_equal. rewrite (elem_clear_with _ el el), decide_True by done.
      pose proof (elem_sync_with s el ws el) as He. rewrite decide_True in He by done.
      rewrite He.
      assert (cleared_names (sync_with s el ws) el = map fst (named ws)) as ->.
      { unfold cleared_names. rewrite record_sync_with, decide_True by done.
        rewrite map_fst_named. apply cleared_names_all.
        apply Forall_map. exact Hun. }
      rewrite resync_local.
      by rewrite (elem_clear_with _ el el), decide_True.
    + rewrite !applied_sync_with. cbn [ws]. apply insert_insert_eq.
Qed.

End EngineFacts.

Section EngineInvariant.

Variable protected : jsstring -> bool.

Local Abbreviation clear_with := (clear_with protected).
Local Abbreviation sync_with := (sync_with protected).
Local Abbreviation run_plan := (run_plan protected).
Local Abbreviation cleared_names := (cleared_names protected).
Local Abbreviation unprotected := (unprotected protected).
Local Abbreviation consistent := (consistent protected).

Lemma attrs_sync_with s el kvs n :
  attrs (elem (sync_with s el kvs) el) !! n
  = final_value (named kvs) n
      (if decide (n ∈ cleared_names s el) then None else attrs (elem s el) !! n).
Proof.
  rewrite elem_sync_with, decide_True by done.
  by rewrite attrs_set_all_local, attrs_remove_all_local.
Qed.

Lemma written_sync_with s el kvs :
  written (elem (sync_with s el kvs) el)
  = list_to_set (map fst (named kvs))
    ∪ (written (elem s el) ∖ list_to_set (cleared_names s el)).
Proof.
  rewrite elem_sync_with, decide_True by done.
  by rewrite written_set_all_local, written_remove_all_local.
Qed.

Lemma elem_sync_with_other s el kvs el' :
  el' ≠ el -> elem (sync_with s el kvs) el' = elem s el'.
Proof. intros H. by rewrite elem_sync_with, decide_False. Qed.

Lemma lookup_sync_with_other s el kvs el' :
  el' ≠ el -> appliedAttributes (sync_with s el kvs) !! el' = appliedAttributes s !! el'.
Proof.
  intros H. rewrite applied_sync_with. destruct kvs.
  - by rewrite lookup_delete_ne.
  - by rewrite lookup_insert_ne.
Qed.

Lemma lookup_sync_with s el kvs :
  appliedAttributes (sync_with s el kvs) !! el
  = match kvs with [] => None | _ => Some (map fst kvs) end.
Proof.
  rewrite applied_sync_with. destruct kvs.
  - by rewrite lookup_delete_eq.
  - by rewrite lookup_insert_eq.
Qed.

(** What a synchronisation leaves alone: every name that is neither
    cleared nor written, on the element itself, and every other element. *)
Lemma sync_with_frame s el kvs el' n :
  (el' = el -> (n ∉ cleared_names s el) /\ (n ∉ map fst (named kvs))) ->
  attrs (elem (sync_with s el kvs) el') !! n = attrs (elem s el') !! n
  /\ (n ∈ written (elem (sync_with s el kvs) el') <-> n ∈ written (elem s el')).
Proof.
  intros H. destruct (decide (el' = el)) as [->|Hne].
  - destruct (H eq_refl) as [Hc Hw].
    rewrite attrs_sync_with, written_sync_with, final_value_notin, decide_False by done.
    split; [done|].
    rewrite elem_of_union, elem_of_difference, !elem_of_list_to_set. tauto.
  - by rewrite elem_sync_with_other.
Qed.

Lemma consistent_cleared_names s el :
  consistent s -> cleared_names s el = map data_ (record s el).
Proof. intros Hc. apply cleared_names_all, Hc. Qed.

Lemma consistent_initial d : consistent (initial d).
Proof.
  intros el.
  assert (record (initial d) el = []) as Hr by (unfold record, initial; simpl; by rewrite lookup_empty).
  assert (written (elem (initial d) el) = ∅) as Hw.
  { unfold elem, initial; simpl. rewrite lookup_fmap. by destruct (d !! el). }
  rewrite Hr, Hw. repeat split.
  - constructor.
  - simpl. by rewrite lookup_empty.
  - intros n Hn. by apply not_elem_of_empty in Hn.
Qed.

Lemma consistent_sync_with s el kvs :
  unprotected kvs -> consistent s -> consistent (sync_with s el kvs).
Proof.
  intros Hun Hc el'. destruct (decide (el' = el)) as [->|Hne].
  - destruct (Hc el) as (Hp & Hw & Hne & Hat).
    assert (written (elem (sync_with s el kvs) el)
            = list_to_set (map data_ (map fst kvs))) as Hw'.
    { rewrite written_sync_with, map_fst_named, consistent_cleared_names, Hw by done.
      apply set_eq; intros n.
      rewrite elem_of_union, elem_of_difference. tauto. }
    rewrite record_sync_with, decide_True by done. repeat split.
    + apply Forall_map. exact Hun.
    + exact Hw'.
    + rewrite lookup_sync_with. by destruct kvs.
    + intros n Hn. rewrite Hw', <- map_fst_named in Hn.
      apply elem_of_list_to_set in Hn.
      rewrite attrs_sync_with. by apply final_value_is_Some.
  - rewrite record_sync_with, decide_False by done.
    rewrite elem_sync_with_other, lookup_sync_with_other by done. apply Hc.
Qed.

Lemma consistent_clear_with s el : consistent s -> consistent (clear_with s el).
Proof.
  intros Hc. rewrite <- sync_with_nil. apply consistent_sync_with; [constructor|done].
Qed.

Lemma consistent_run_plan s plan :
  (forall el kvs, plan = Some (el, kvs) -> unprotected kvs) ->
  consistent s -> consistent (run_plan s plan).
Proof.
  intros Hun Hc. destruct plan as [[el kvs]|]; [|done].
  apply consistent_sync_with; [by eapply Hun|done].
Qed.

(** After a synchronisation of a consistent state, the element carries the
    written names and nothing else of the plugin's. *)
Lemma synced_written s el kvs :
  consistent s ->
  written (elem (sync_with s el kvs) el) = list_to_set (map data_ (map fst kvs)).
Proof.
  intros Hc. destruct (Hc el) as (_ & Hw & _).
  rewrite written_sync_with, map_fst_named, consistent_cleared_names, Hw by done.
  apply set_eq; intros n. rewrite elem_of_union, elem_of_difference. tauto.
Qed.

Lemma synced_attrs s el kvs n :
  n ∈ map data_ (map fst kvs) ->
  attrs (elem (sync_with s el kvs) el) !! n = final_value (named kvs) n None.
Proof.
  intros Hn. rewrite attrs_sync_with. apply final_value_in. by rewrite map_fst_named.
Qed.

End EngineInvariant.

(** ** Facts about the writes of each revision *)

Lemma hasOwnProperty_elem_of fm k : hasOwnProperty fm k = true <-> k ∈ map fst fm.
Proof.
  unfold hasOwnProperty. rewrite existsb_exists. split.
  - intros (p & Hp & Hk). apply bool_decide_eq_true in Hk. subst.
    apply list_elem_of_In, in_map, Hp.
  - intros Hk. apply list_elem_of_In, in_map_iff in Hk as (p & Hk & Hp).
    exists p. split; [done|]. by apply bool_decide_eq_true.
Qed.

Lemma get_property_first pre k v post :
  k ∉ map fst pre -> get_property (pre ++ (k, v) :: post) k = v.
Proof.
  unfold get_property. induction pre as [|p pre IH]; intros Hk; simpl.
  - by rewrite bool_decide_eq_true_2.
  - simpl in Hk. apply not_elem_of_cons in Hk as [Hne Hk].
    rewrite bool_decide_eq_false_2 by congruence. by apply IH.
Qed.

Lemma final_value_last_write ws1 n v ws2 i :
  n ∉ map fst ws2 -> final_value (ws1 ++ (n, v) :: ws2) n i = Some v.
Proof.
  intros Hn. unfold final_value. rewrite foldl_app. simpl.
  rewrite decide_True by done. by apply final_value_notin.
Qed.


Lemma flat_map_filter_map {A B} (p : A -> bool) (g : A -> B) (l : list A) :
  flat_map (fun x => if p x then [g x] else []) l = map g (filter (fun x => p x) l).
Proof.
  induction l as [|x l IH]; [done|]. simpl. rewrite filter_cons.
  destruct (p x) eqn:E; simpl; by rewrite IH.
Qed.

Lemma part000_writes_filter fm keys :
  Part000.writes fm keys
  = map (fun key => (attributeKey key, Part000.processedValue (get_property fm key)))
        (filter (fun key => Part000.applies fm key) keys).
Proof.
  rewrite <- flat_map_filter_map. unfold Part000.writes, Part000.applies.
  apply flat_map_ext. intros key.
  destruct (hasOwnProperty fm key); cbn [negb andb]; [|done].
  by destruct (contains Part000.prohibitedAttributeNames (data_ (attributeKey key))).
Qed.

Lemma srcmain_writes_filter fm keys :
  SrcMain.writes fm keys
  = map (fun key => (attributeKey key, SrcMain.processedValue (get_property fm key)))
        (filter (fun key => hasOwnProperty fm key) keys).
Proof. by rewrite <- flat_map_filter_map. Qed.

Lemma filter_inherited app fm (p : jsstring -> bool) :
  (forall k, p k = true -> hasOwnProperty fm k = true) ->
  filter (fun k => p k) (for_in_keys app fm) = filter (fun k => p k) (map fst fm).
Proof.
  intros Hp. unfold for_in_keys. rewrite filter_app.
  match goal with |- _ ++ ?l = _ => assert (l = []) as -> end; [|by rewrite app_nil_r].
  induction (inherited_keys app) as [|k ks IH]; [done|].
  rewrite filter_cons. destruct (hasOwnProperty fm k) eqn:E; simpl.
  - exact IH.
  - rewrite filter_cons_False; [exact IH|].
    intros H. apply Is_true_true, Hp in H. congruence.
Qed.

Lemma part000_writes_for_in app fm :
  Part000.writes fm (for_in_keys app fm) = Part000.writes fm (map fst fm).
Proof.
  rewrite !part000_writes_filter. f_equal. apply filter_inherited.
  unfold Part000.applies. intros k H. by apply andb_true_iff in H as [H _].
Qed.

Lemma srcmain_writes_for_in app fm :
  SrcMain.writes fm (for_in_keys app fm) = SrcMain.writes fm (map fst fm).
Proof. rewrite !srcmain_writes_filter. f_equal. by apply filter_inherited. Qed.

Lemma part000_writes_unprotected fm keys :
  unprotected (contains Part000.prohibitedAttributeNames) (Part000.writes fm keys).
Proof.
  rewrite part000_writes_filter. apply Forall_map, Forall_forall.
  intros key Hk. apply list_elem_of_filter in Hk as [Hk _]. simpl.
  unfold Part000.applies in Hk. apply Is_true_true, andb_true_iff in Hk as [_ Hk].
  by apply negb_true_iff in Hk.
Qed.

Lemma part000_plan_unprotected app file leaf el kvs :
  Part000.plan app file leaf = Some (el, kvs) ->
  unprotected (contains Part000.prohibitedAttributeNames) kvs.
Proof.
  unfold Part000.plan. destruct file, leaf; try done.
  destruct (containerEl _); [|done].
  destruct (frontmatter_of _ _); intros [= _ <-].
  - apply part000_writes_unprotected.
  - constructor.
Qed.

Lemma srcmain_unprotected kvs : unprotected (fun _ => false) kvs.
Proof. by apply Forall_forall. Qed.

(** Every written key is the sanitised form of an own key. *)
Lemma part000_written_key fm keys k :
  k ∈ map fst (Part000.writes fm keys) ->
  exists key, hasOwnProperty fm key = true /\ k = attributeKey key.
Proof.
  rewrite part000_writes_filter, map_map. simpl.
  intros H. apply list_elem_of_In, in_map_iff in H as (key & <- & Hk).
  apply list_elem_of_In, list_elem_of_filter in Hk as [Hk _].
  unfold Part000.applies in Hk. apply Is_true_true, andb_true_iff in Hk as [Hk _].
  by exists key.
Qed.

Lemma srcmain_written_key fm keys k :
  k ∈ map fst (SrcMain.writes fm keys) ->
  exists key, hasOwnProperty fm key = true /\ k = attributeKey key.
Proof.
  rewrite srcmain_writes_filter, map_map. simpl.
  intros H. apply list_elem_of_In, in_map_iff in H as (key & <- & Hk).
  apply list_elem_of_In, list_elem_of_filter in Hk as [Hk _].
  apply Is_true_true in Hk. by exists key.
Qed.

Lemma restFrontmatter_own fm key :
  hasOwnProperty (SrcMain.restFrontmatter fm) key = true -> hasOwnProperty fm key = true.
Proof.
  rewrite !hasOwnProperty_elem_of. unfold SrcMain.restFrontmatter.
  intros H. apply list_elem_of_In, in_map_iff in H as (p & <- & Hp).
  apply list_elem_of_In, list_elem_of_filter in Hp as [_ Hp].
  apply list_elem_of_In, in_map, list_elem_of_In, Hp.
Qed.

(** ** Runs of calls keep the bookkeeping invariant *)

Lemma part000_run_consistent d calls :
  consistent (contains Part000.prohibitedAttributeNames) (Part000.run calls (initial d)).
Proof.
  induction calls as [|c calls IH] using rev_ind.
  - apply consistent_initial.
  - unfold Part000.run in *. rewrite foldl_app. simpl.
    destruct c as [app file leaf|el]; simpl.
    + rewrite part000_applyAttributes_eq. apply consistent_run_plan; [|done].
      intros el kvs. apply part000_plan_unprotected.
    + rewrite part000_clearAttributes_eq. by apply consistent_clear_with.
Qed.

Lemma srcmain_run_consistent d calls :
  consistent (fun _ => false) (SrcMain.run calls (initial d)).
Proof.
  induction calls as [|c calls IH] using rev_ind.
  - apply consistent_initial.
  - unfold SrcMain.run in *. rewrite foldl_app. simpl.
    destruct c as [app file leaf|el]; simpl.
    + rewrite srcmain_applyAttributes_eq. apply consistent_run_plan; [|done].
      intros el kvs _. apply srcmain_unprotected.
    + rewrite srcmain_clearAttributes_eq. by apply consistent_clear_with.
Qed.

(** ** Key sanitisation *)

Ltac cmp_cases :=
  repeat match goal with
    | |- context [N.leb ?a ?b] => destruct (N.leb_spec a b)
    | |- context [N.ltb ?a ?b] => destruct (N.ltb_spec a b)
    | |- context [N.eqb ?a ?b] => destruct (N.eqb_spec a b)
    end.

Lemma lower_unit_ascii c : c < 128 -> lower_unit c = [ascii_lower c].
Proof.
  intros Hc. unfold lower_unit, ascii_lower, is_ascii_upper.
  cmp_cases; cbn [andb orb negb]; first [reflexivity | lia].
Qed.

Lemma key_unit_ok_ascii c : key_unit_ok c = true -> c < 128.
Proof.
  unfold key_unit_ok, is_ascii_lower, is_ascii_upper, is_ascii_digit, hyphen.
  cmp_cases; cbn [andb orb]; first [discriminate | lia].
Qed.

Lemma replaced_unit_ascii c : (if key_unit_ok c then c else hyphen) < 128.
Proof.
  destruct (key_unit_ok c) eqn:E; [by apply key_unit_ok_ascii|]. unfold hyphen. lia.
Qed.

Lemma key_unit_ok_lower c : c < 128 -> key_unit_ok (ascii_lower c) = true <-> key_unit_ok c = true.
Proof.
  intros Hc. unfold ascii_lower, is_ascii_upper.
  destruct (N.leb_spec 65 c), (N.leb_spec c 90); cbn [andb]; [|tauto..].
  unfold key_unit_ok, is_ascii_lower, is_ascii_upper, is_ascii_digit, hyphen.
  cmp_cases; cbn [andb orb]; first [tauto | lia].
Qed.

Lemma attributeKey_map key : attributeKey key = map ascii_lower (replace_invalid key).
Proof.
  unfold attributeKey, toLowerCase, replace_invalid.
  induction key as [|c key IH]; [done|].
  cbn [map flat_map]. rewrite IH, lower_unit_ascii by apply replaced_unit_ascii. done.
Qed.

Lemma spec_sanitize_ascii key :
  Forall (fun c => c < 128) key -> spec_sanitize key = map ascii_lower (replace_invalid key).
Proof.
  unfold spec_sanitize, toLowerCase, replace_invalid.
  induction 1 as [|c key Hc _ IH]; [done|].
  cbn [map flat_map]. rewrite map_app, IH, lower_unit_ascii by done.
  cbn [map app]. f_equal.
  destruct (key_unit_ok c) eqn:E.
  - by rewrite (proj2 (key_unit_ok_lower c Hc) E).
  - destruct (key_unit_ok (ascii_lower c)) eqn:E'; [|done].
    apply (proj1 (key_unit_ok_lower c Hc)) in E'. congruence.
Qed.

(** C5, as amended: the sanitised key is the key with every code unit other
    than an ASCII letter, digit or hyphen replaced by a hyphen, and the
    ASCII letters lower-cased afterwards.  On keys of ASCII characters this
    is also the result of lower-casing first and replacing afterwards.  The
    key [My Tag!] gives the attribute name [data-my-tag-]. *)
Theorem attributeKey_replaces_then_lowers (key : jsstring) :
  attributeKey key = map ascii_lower (replace_invalid key)
  /\ (Forall (fun c => c < 128) key -> attributeKey key = spec_sanitize key)
  /\ data_ (attributeKey (js "My Tag!")) = js "data-my-tag-".
Proof.
  split; [apply attributeKey_map|]. split; [|reflexivity].
  intros H. by rewrite attributeKey_map, spec_sanitize_ascii.
Qed.

Lemma attributeKey_replaces_then_lowers_witness :
  attributeKey (js "My Tag!") = spec_sanitize (js "My Tag!").
Proof.
  apply (attributeKey_replaces_then_lowers (js "My Tag!")).
  repeat constructor.
Defined.

(** C5 as stated fails: lower-casing U+212A KELVIN SIGN first gives [k],
    which the replacement keeps, while the code replaces the sign by a
    hyphen before it lower-cases. *)
Lemma sanitize_order_counterexample :
  attributeKey kelvin_key = js "-"
  /\ spec_sanitize kelvin_key = js "k"
  /\ attributeKey kelvin_key <> spec_sanitize kelvin_key.
Proof. repeat split. discriminate. Qed.

(** ** Idempotence *)

Lemma elem_of_map {A B} (f : A -> B) (l : list A) (y : B) :
  y ∈ map f l <-> exists x, y = f x /\ x ∈ l.
Proof.
  rewrite list_elem_of_In, in_map_iff. split.
  - intros (x & <- & Hx). exists x. by rewrite list_elem_of_In.
  - intros (x & -> & Hx). exists x. by rewrite <- list_elem_of_In.
Qed.

Lemma part000_plan_inv app file leaf el kvs :
  Part000.plan app file leaf = Some (el, kvs) ->
  exists f l, file = Some f /\ leaf = Some l /\ containerEl (view l) = Some el
    /\ ((frontmatter_of app f = None /\ kvs = [])
        \/ exists fm, frontmatter_of app f = Some fm
                      /\ kvs = Part000.writes fm (for_in_keys app fm)).
Proof.
  unfold Part000.plan. destruct file as [f|], leaf as [l|]; try done.
  destruct (containerEl (view l)) as [e|] eqn:He; [|done].
  destruct (frontmatter_of app f) as [fm|] eqn:Hfm; intros [= <- <-];
    exists f, l; repeat split; eauto.
Qed.

Lemma srcmain_plan_inv app file leaf el kvs :
  SrcMain.plan app file leaf = Some (el, kvs) ->
  exists f l, file = Some f /\ leaf = Some l
    /\ querySelector_leaf_content (view l) = Some el
    /\ ((frontmatter_of app f = None /\ kvs = [])
        \/ exists fm, frontmatter_of app f = Some fm
                      /\ kvs = SrcMain.writes (SrcMain.restFrontmatter fm)
                                 (for_in_keys app (SrcMain.restFrontmatter fm))).
Proof.
  unfold SrcMain.plan. destruct file as [f|], leaf as [l|]; try done.
  destruct (querySelector_leaf_content (view l)) as [e|] eqn:He; [|done].
  destruct (frontmatter_of app f) as [fm|] eqn:Hfm; intros [= <- <-];
    exists f, l; repeat split; eauto.
Qed.

(** C2: applying twice in succession, with the same metadata and the same
    leaf, gives the state that applying once gives: the same attributes on
    every element and the same applied-attribute table.  Both revisions. *)
Theorem applyAttributes_idempotent app s file leaf :
  Part000.applyAttributes app (Part000.applyAttributes app s file leaf) file leaf
  = Part000.applyAttributes app s file leaf
  /\ SrcMain.applyAttributes app (SrcMain.applyAttributes app s file leaf) file leaf
     = SrcMain.applyAttributes app s file leaf.
Proof.
  split.
  - rewrite !part000_applyAttributes_eq.
    destruct (Part000.plan app file leaf) as [[el kvs]|] eqn:Hplan; [|done].
    apply sync_with_idempotent. by eapply part000_plan_unprotected.
  - rewrite !srcmain_applyAttributes_eq.
    destruct (SrcMain.plan app file leaf) as [[el kvs]|]; [|done].
    apply sync_with_idempotent, srcmain_unprotected.
Qed.

(** ** Frame *)

Lemma not_cleared_name protected s el n :
  (forall k, k ∈ record s el -> n <> data_ k) -> n ∉ cleared_names protected s el.
Proof.
  intros H Hin. apply elem_of_cleared_names in Hin as [_ Hin].
  apply elem_of_map in Hin as (k & -> & Hk). by eapply H.
Qed.

Lemma part000_not_written_name app file leaf el kvs n :
  Part000.plan app file leaf = Some (el, kvs) ->
  (forall f fm key, file = Some f -> frontmatter_of app f = Some fm ->
                    hasOwnProperty fm key = true -> n <> data_ (attributeKey key)) ->
  n ∉ map fst (named kvs).
Proof.
  intros Hplan H. rewrite map_fst_named. intros Hin.
  apply elem_of_map in Hin as (k & -> & Hk).
  apply part000_plan_inv in Hplan as (f & l & -> & _ & _ & [[_ ->]|(fm & Hfm & ->)]).
  - by apply elem_of_nil in Hk.
  - apply part000_written_key in Hk as (key & Hown & ->). by eapply H.
Qed.

Lemma srcmain_not_written_name app file leaf el kvs n :
  SrcMain.plan app file leaf = Some (el, kvs) ->
  (forall f fm key, file = Some f -> frontmatter_of app f = Some fm ->
                    hasOwnProperty fm key = true -> n <> data_ (attributeKey key)) ->
  n ∉ map fst (named kvs).
Proof.
  intros Hplan H. rewrite map_fst_named. intros Hin.
  apply elem_of_map in Hin as (k & -> & Hk).
  apply srcmain_plan_inv in Hplan as (f & l & -> & _ & _ & [[_ ->]|(fm & Hfm & ->)]).
  - by apply elem_of_nil in Hk.
  - apply srcmain_written_key in Hk as (key & Hown & ->).
    apply restFrontmatter_own in Hown. by eapply H.
Qed.

(** C10: on any element, an attribute whose name is not [data-k] for a key
    [k] of the element's record is left as it is by [clearAttributes]; if
    the name is also not [data-k'] for the sanitised form [k'] of a key of
    the current metadata, it is left as it is by [applyAttributes].  Both
    revisions. *)
Theorem attributes_frame s el n :
  (forall k, k ∈ record s el -> n <> data_ k) ->
  (forall element,
      attrs (elem (Part000.clearAttributes s element) el) !! n = attrs (elem s el) !! n
      /\ attrs (elem (SrcMain.clearAttributes s element) el) !! n = attrs (elem s el) !! n)
  /\ (forall app file leaf,
         (forall f fm key, file = Some f -> frontmatter_of app f = Some fm ->
                           hasOwnProperty fm key = true -> n <> data_ (attributeKey key)) ->
         attrs (elem (Part000.applyAttributes app s file leaf) el) !! n
         = attrs (elem s el) !! n
         /\ attrs (elem (SrcMain.applyAttributes app s file leaf) el) !! n
            = attrs (elem s el) !! n).
Proof.
  intros Hrec. split.
  - intros element.
    rewrite part000_clearAttributes_eq, srcmain_clearAttributes_eq, <- !sync_with_nil.
    split; apply sync_with_frame; intros ->;
      (split; [by apply not_cleared_name | apply not_elem_of_nil]).
  - intros app file leaf Hmeta.
    rewrite part000_applyAttributes_eq, srcmain_applyAttributes_eq. split.
    + destruct (Part000.plan app file leaf) as [[e kvs]|] eqn:Hplan; [|done].
      apply sync_with_frame. intros ->. split; [by apply not_cleared_name|].
      by eapply part000_not_written_name.
    + destruct (SrcMain.plan app file leaf) as [[e kvs]|] eqn:Hplan; [|done].
      apply sync_with_frame. intros ->. split; [by apply not_cleared_name|].
      by eapply srcmain_not_written_name.
Qed.

Lemma attributes_frame_witness :
  attrs (elem (Part000.applyAttributes (app_with (Some readme_frontmatter) [])
                 tagged_state (Some note) (Some (leaf_on el1))) el1) !! js "class"
  = attrs (elem tagged_state el1) !! js "class".
Proof.
  destruct (attributes_frame tagged_state el1 (js "class")) as [_ H].
  - intros k _ Heq. vm_compute in Heq. discriminate.
  - apply H. intros f fm key _ _ _ Heq. vm_compute in Heq. discriminate.
Defined.

(** ** Reserved names *)

Lemma protected_untouched protected s el kvs el' n :
  protected n = true -> unprotected protected kvs ->
  untouched n (elem s el') (elem (sync_with protected s el kvs) el').
Proof.
  intros Hn Hun. apply sync_with_frame. intros _. split.
  - intros Hin. apply elem_of_cleared_names in Hin as [Hp _]. congruence.
  - rewrite map_fst_named. intros Hin. apply elem_of_map in Hin as (k & -> & Hk).
    apply elem_of_map in Hk as (kv & -> & Hkv).
    unfold unprotected in Hun. rewrite Forall_forall in Hun.
    apply Hun in Hkv. congruence.
Qed.

Lemma part000_prohibited_untouched app s file leaf element el n :
  contains Part000.prohibitedAttributeNames n = true ->
  untouched n (elem s el) (elem (Part000.applyAttributes app s file leaf) el)
  /\ untouched n (elem s el) (elem (Part000.clearAttributes s element) el).
Proof.
  intros Hn. split.
  - rewrite part000_applyAttributes_eq.
    destruct (Part000.plan app file leaf) as [[e kvs]|] eqn:Hplan; [|by split].
    apply protected_untouched; [done|]. by eapply part000_plan_unprotected.
  - rewrite part000_clearAttributes_eq, <- sync_with_nil.
    apply protected_untouched; [done|constructor].
Qed.

(** X1.  In [part_000], whatever the metadata holds, neither
    [applyAttributes] nor [clearAttributes] writes or removes [data-type]
    or [data-mode] on any element: the reserved-name protection that C4
    asks for. *)
Theorem reserved_names_untouched app s file leaf element el :
  (untouched (js "data-type") (elem s el)
     (elem (Part000.applyAttributes app s file leaf) el)
   /\ untouched (js "data-type") (elem s el)
        (elem (Part000.clearAttributes s element) el))
  /\ (untouched (js "data-mode") (elem s el)
        (elem (Part000.applyAttributes app s file leaf) el)
      /\ untouched (js "data-mode") (elem s el)
           (elem (Part000.clearAttributes s element) el)).
Proof. split; by apply part000_prohibited_untouched. Qed.

(** C4 is not met by [src/main.ts], which has no list of reserved names:
    with the keys [type] and [Type] in the metadata, [applyAttributes]
    overwrites the host's [data-type], and the next [clearAttributes]
    removes the attribute. *)
Lemma srcmain_overwrites_data_type :
  attrs (elem (initial host_dom) el1) !! js "data-type" = Some (js "markdown")
  /\ attrs (elem (SrcMain.applyAttributes (app_with (Some type_frontmatter) [])
                    (initial host_dom) (Some note) (Some (leaf_on el1))) el1)
       !! js "data-type" = Some (js "b")
  /\ attrs (elem (SrcMain.clearAttributes
                    (SrcMain.applyAttributes (app_with (Some type_frontmatter) [])
                       (initial host_dom) (Some note) (Some (leaf_on el1))) el1) el1)
       !! js "data-type" = None.
Proof. repeat split; vm_compute; reflexivity. Qed.

(** ** Absent inputs *)

Lemma clear_with_nothing_written protected s el el' :
  nothing_written (elem s el') (elem (clear_with protected s el) el').
Proof.
  rewrite elem_clear_with. destruct (decide (el' = el)) as [->|Hne].
  - split.
    + intros n. rewrite attrs_remove_all_local. case_decide; [by left|by right].
    + rewrite written_remove_all_local. apply subseteq_difference_l. done.
  - split; [by right|done].
Qed.

(** C7, as amended.  [applyAttributes] with an absent document, an absent
    leaf or an unresolvable target element, and [clearAttributes] on an
    element with no record, return the state they were given.
    [applyAttributes] with absent metadata does what [clearAttributes] does
    on the target element: it writes nothing, and it deletes the element's
    record from the table.  Both revisions; every function of the model is
    total, so no call raises. *)
Theorem absent_inputs app s :
  (forall leaf, Part000.applyAttributes app s None leaf = s
                /\ SrcMain.applyAttributes app s None leaf = s)
  /\ (forall file, Part000.applyAttributes app s file None = s
                   /\ SrcMain.applyAttributes app s file None = s)
  /\ (forall file l, containerEl (view l) = None ->
                     Part000.applyAttributes app s file (Some l) = s)
  /\ (forall file l, querySelector_leaf_content (view l) = None ->
                     SrcMain.applyAttributes app s file (Some l) = s)
  /\ (forall el, appliedAttributes s !! el = None ->
                 Part000.clearAttributes s el = s /\ SrcMain.clearAttributes s el = s)
  /\ (forall f l el, frontmatter_of app f = None ->
        (containerEl (view l) = Some el ->
         Part000.applyAttributes app s (Some f) (Some l) = Part000.clearAttributes s el)
        /\ (querySelector_leaf_content (view l) = Some el ->
            SrcMain.applyAttributes app s (Some f) (Some l) = SrcMain.clearAttributes s el))
  /\ (forall el,
        (appliedAttributes (Part000.clearAttributes s el) = delete el (appliedAttributes s)
         /\ forall el', nothing_written (elem s el') (elem (Part000.clearAttributes s el) el'))
        /\ (appliedAttributes (SrcMain.clearAttributes s el) = delete el (appliedAttributes s)
            /\ forall el', nothing_written (elem s el') (elem (SrcMain.clearAttributes s el) el'))).
Proof.
  repeat apply conj.
  - done.
  - intros [f|]; done.
  - intros [f|] l Hl; [|done]. unfold Part000.applyAttributes. by rewrite Hl.
  - intros [f|] l Hl; [|done]. unfold SrcMain.applyAttributes. by rewrite Hl.
  - intros el Hel. unfold Part000.clearAttributes, SrcMain.clearAttributes.
    by rewrite Hel.
  - intros f l el Hfm. split; intros Hel.
    + unfold Part000.applyAttributes. by rewrite Hel, Hfm.
    + unfold SrcMain.applyAttributes. by rewrite Hel, Hfm.
  - intros el. rewrite part000_clearAttributes_eq, srcmain_clearAttributes_eq.
    split; (split; [apply applied_clear_with|intros el'; apply clear_with_nothing_written]).
Qed.

Lemma absent_inputs_witness :
  Part000.applyAttributes (app_with None []) tagged_state (Some note) (Some (leaf_on el1))
  = Part000.clearAttributes tagged_state el1.
Proof.
  destruct (absent_inputs (app_with None []) tagged_state) as (_ & _ & _ & _ & _ & H & _).
  apply (H note (leaf_on el1) el1); reflexivity.
Defined.

(** C7 as stated fails: with absent metadata on an element that holds a
    record, [applyAttributes] changes the applied-attribute table. *)
Lemma absent_metadata_counterexample :
  frontmatter_of (app_with None []) note = None
  /\ appliedAttributes tagged_state !! el1 = Some [js "my-tag"]
  /\ appliedAttributes
       (Part000.applyAttributes (app_with None []) tagged_state
          (Some note) (Some (leaf_on el1))) !! el1 = None
  /\ appliedAttributes
       (Part000.applyAttributes (app_with None []) tagged_state
          (Some note) (Some (leaf_on el1))) <> appliedAttributes tagged_state.
Proof.
  assert (appliedAttributes tagged_state !! el1 = Some [js "my-tag"]) as H1
    by (vm_compute; reflexivity).
  assert (appliedAttributes
            (Part000.applyAttributes (app_with None []) tagged_state
               (Some note) (Some (leaf_on el1))) !! el1 = None) as H2
    by (vm_compute; reflexivity).
  split; [reflexivity|]. split; [exact H1|]. split; [exact H2|].
  intros Heq. rewrite Heq, H1 in H2. discriminate.
Qed.

(** ** Cleanup before apply *)

Lemma sync_with_removes protected s el kvs K :
  consistent protected s -> K ∈ record s el ->
  data_ K ∉ map fst (named kvs) ->
  attrs (elem (sync_with protected s el kvs) el) !! data_ K = None.
Proof.
  intros Hc HK Hw. rewrite attrs_sync_with, final_value_notin by done.
  rewrite decide_True; [done|].
  rewrite consistent_cleared_names by done. apply elem_of_map. by exists K.
Qed.

(** C3, as amended.  After any sequence of calls, if the record of the
    target element contains the sanitised key [K] and no key of the
    metadata snapshot sanitises to [K], then [data-K] is absent from the
    element after [applyAttributes].  Both revisions. *)
Theorem cleanup_before_apply d calls app f l el keys K fm :
  frontmatter_of app f = Some fm ->
  (forall key, hasOwnProperty fm key = true -> attributeKey key <> K) ->
  K ∈ keys ->
  (containerEl (view l) = Some el ->
   appliedAttributes (Part000.run calls (initial d)) !! el = Some keys ->
   attrs (elem (Part000.applyAttributes app (Part000.run calls (initial d))
                  (Some f) (Some l)) el) !! data_ K = None)
  /\ (querySelector_leaf_content (view l) = Some el ->
      appliedAttributes (SrcMain.run calls (initial d)) !! el = Some keys ->
      attrs (elem (SrcMain.applyAttributes app (SrcMain.run calls (initial d))
                     (Some f) (Some l)) el) !! data_ K = None).
Proof.
  intros Hfm Hkeys HK. split; intros Hel Hrec.
  - rewrite part000_applyAttributes_eq. unfold Part000.plan. rewrite Hel, Hfm.
    cbn [run_plan]. apply sync_with_removes.
    + apply part000_run_consistent.
    + unfold record. by rewrite Hrec.
    + rewrite map_fst_named. intros Hin. apply elem_of_map in Hin as (k & Hk & Hin).
      apply data_inj in Hk as <-.
      apply part000_written_key in Hin as (key & Hown & ->). by eapply Hkeys.
  - rewrite srcmain_applyAttributes_eq. unfold SrcMain.plan. rewrite Hel, Hfm.
    cbn [run_plan]. apply sync_with_removes.
    + apply srcmain_run_consistent.
    + unfold record. by rewrite Hrec.
    + rewrite map_fst_named. intros Hin. apply elem_of_map in Hin as (k & Hk & Hin).
      apply data_inj in Hk as <-.
      apply srcmain_written_key in Hin as (key & Hown & ->).
      apply restFrontmatter_own in Hown. by eapply Hkeys.
Qed.

Lemma cleanup_before_apply_witness :
  attrs (elem (Part000.applyAttributes (app_with (Some readme_frontmatter) [])
                 (Part000.run
                    [CallApply (app_with (Some tagged_frontmatter) [])
                       (Some note) (Some (leaf_on el1))]
                    (initial host_dom))
                 (Some note) (Some (leaf_on el1))) el1)
    !! data_ (js "my-tag") = None.
Proof.
  refine (proj1 (cleanup_before_apply host_dom
                   [CallApply (app_with (Some tagged_frontmatter) [])
                      (Some note) (Some (leaf_on el1))]
                   (app_with (Some readme_frontmatter) []) note (leaf_on el1) el1
                   [js "my-tag"] (js "my-tag") readme_frontmatter _ _ _) _ _).
  - reflexivity.
  - intros key Hkey. apply hasOwnProperty_elem_of in Hkey. cbn [readme_frontmatter map fst] in Hkey.
    repeat (apply elem_of_cons in Hkey as [->|Hkey]); try (vm_compute; discriminate).
    by apply elem_of_nil in Hkey.
  - by left.
  - reflexivity.
  - vm_compute. reflexivity.
Defined.

(** C3 as stated fails: the record holds [my-tag], the new snapshot has no
    key named [my-tag], and still [data-my-tag] is present afterwards,
    because the key [my tag] sanitises to it. *)
Lemma cleanup_named_counterexample :
  appliedAttributes tagged_state !! el1 = Some [js "my-tag"]
  /\ hasOwnProperty retagged_frontmatter (js "my-tag") = false
  /\ attrs (elem (Part000.applyAttributes (app_with (Some retagged_frontmatter) [])
                    tagged_state (Some note) (Some (leaf_on el1))) el1)
       !! data_ (js "my-tag") = Some (js "y").
Proof. repeat split; vm_compute; reflexivity. Qed.

(** ** The bookkeeping invariant *)

Lemma consistent_bookkeeping protected s el :
  consistent protected s -> bookkeeping_exact s el.
Proof. intros Hc. destruct (Hc el) as (_ & H1 & H2 & H3). by repeat split. Qed.

(** C1.  After any sequence of [applyAttributes] and [clearAttributes]
    calls, on every element the names the plugin has written and not
    removed are exactly the [data-] names of the element's record (none when
    there is no record), and no empty record is kept.  A call of
    [applyAttributes] that reaches the metadata replaces the record of its
    target by the keys it applied, whatever the record held before, and
    leaves no record when it applied none.  Both revisions. *)
Theorem written_matches_record d calls el :
  bookkeeping_exact (Part000.run calls (initial d)) el
  /\ bookkeeping_exact (SrcMain.run calls (initial d)) el
  /\ (forall app s f l fm,
         frontmatter_of app f = Some fm ->
         (containerEl (view l) = Some el ->
          appliedAttributes (Part000.applyAttributes app s (Some f) (Some l)) !! el
          = record_of_keys (map fst (Part000.writes fm (for_in_keys app fm))))
         /\ (querySelector_leaf_content (view l) = Some el ->
             appliedAttributes (SrcMain.applyAttributes app s (Some f) (Some l)) !! el
             = record_of_keys
                 (map fst (SrcMain.writes (SrcMain.restFrontmatter fm)
                             (for_in_keys app (SrcMain.restFrontmatter fm)))))).
Proof.
  split; [|split].
  - eapply consistent_bookkeeping, part000_run_consistent.
  - eapply consistent_bookkeeping, srcmain_run_consistent.
  - intros app s f l fm Hfm. split; intros Hel.
    + rewrite part000_applyAttributes_eq. unfold Part000.plan. rewrite Hel, Hfm.
      cbn [run_plan]. rewrite lookup_sync_with.
      by destruct (Part000.writes fm (for_in_keys app fm)).
    + rewrite srcmain_applyAttributes_eq. unfold SrcMain.plan. rewrite Hel, Hfm.
      cbn [run_plan]. rewrite lookup_sync_with.
      by destruct (SrcMain.writes _ _).
Qed.

Lemma written_matches_record_witness :
  appliedAttributes
    (Part000.applyAttributes (app_with (Some readme_frontmatter) []) tagged_state
       (Some note) (Some (leaf_on el1))) !! el1
  = Some [js "tags"; js "start"; js "end"; js "insurance"].
Proof.
  destruct (written_matches_record host_dom [] el1) as (_ & _ & H).
  destruct (H (app_with (Some readme_frontmatter) []) tagged_state note (leaf_on el1)
              readme_frontmatter eq_refl) as [H1 _].
  rewrite (H1 eq_refl). vm_compute. reflexivity.
Defined.

(** ** Values *)

Lemma part000_processedValue_spec v : Part000.processedValue v = spec_serialize v.
Proof. destruct v as [| |[]| | | |]; reflexivity. Qed.

Lemma srcmain_processedValue_spec v : SrcMain.processedValue v = spec_serialize v.
Proof. destruct v as [| |[]| | | |]; reflexivity. Qed.

Section WritesOfKeys.

(** The writes of either revision: the keys that pass a test [p], each
    with its sanitised key and a value [val]. *)
Variable p : jsstring -> bool.
Variable val : jsstring -> jsstring.

Let writes_of (keys : list jsstring) : list (jsstring * jsstring) :=
  map (fun key => (attributeKey key, val key)) (filter (fun key => p key) keys).

Lemma writes_of_app ks1 ks2 : writes_of (ks1 ++ ks2) = writes_of ks1 ++ writes_of ks2.
Proof. unfold writes_of. by rewrite filter_app, map_app. Qed.

Lemma elem_of_writes_of keys w :
  w ∈ writes_of keys <-> exists key, w = (attributeKey key, val key) /\ p key = true /\ key ∈ keys.
Proof.
  unfold writes_of. rewrite elem_of_map. split.
  - intros (key & -> & Hk). apply list_elem_of_filter in Hk as [Hp Hk].
    exists key. repeat split; [by apply Is_true_true|done].
  - intros (key & -> & Hp & Hk). exists key. split; [done|].
    apply list_elem_of_filter. split; [by apply Is_true_true|done].
Qed.


Lemma final_value_last_key ks1 k2 ks2 i :
  p k2 = true ->
  (forall k, k ∈ ks2 -> attributeKey k <> attributeKey k2) ->
  final_value (named (writes_of (ks1 ++ k2 :: ks2))) (data_ (attributeKey k2)) i
  = Some (val k2).
Proof.
  intros Hp Hlater.
  change (k2 :: ks2) with ([k2] ++ ks2). rewrite !writes_of_app.
  assert (writes_of [k2] = [(attributeKey k2, val k2)]) as ->.
  { unfold writes_of. rewrite filter_cons_True by (by apply Is_true_true). done. }
  unfold named. rewrite map_app. cbn [map app fst snd].
  apply final_value_last_write.
  fold (named (writes_of ks2)). rewrite map_fst_named. intros Hin.
  apply elem_of_map in Hin as (k & Hk & Hin). apply data_inj in Hk as <-.
  apply elem_of_map in Hin as (w & Hw & Hin).
  apply elem_of_writes_of in Hin as (key & -> & _ & Hkey). simpl in Hw.
  by eapply Hlater.
Qed.

Lemma count_written_key keys K :
  (forall k, k ∈ keys -> attributeKey k = K -> p k = true) ->
  length (filter (fun k => k = K) (map fst (writes_of keys)))
  = length (filter (fun k => attributeKey k = K) keys).
Proof.
  unfold writes_of. induction keys as [|k keys IH]; intros Hp; [done|].
  assert (forall k, k ∈ keys -> attributeKey k = K -> p k = true) as Hp'
    by (intros k' Hk'; apply Hp; by right).
  rewrite (filter_cons (fun key => p key)).
  destruct (decide (attributeKey k = K)) as [HK|HK].
  - rewrite (Hp k) by (done || by left). rewrite decide_True by done.
    cbn [map fst]. rewrite !filter_cons_True by done. cbn [length]. by rewrite IH.
  - rewrite (filter_cons_False _ k keys) by done.
    destruct (p k); [rewrite decide_True by done|rewrite decide_False by tauto].
    + cbn [map fst]. rewrite filter_cons_False by done. by apply IH.
    + by apply IH.
Qed.

End WritesOfKeys.








(** ** Colliding keys *)

Lemma filter_length_pos {A} (P : A -> Prop) `{!forall x, Decision (P x)} (l : list A) x :
  x ∈ l -> P x -> (1 <= length (filter P l))%nat.
Proof.
  intros Hx HP. assert (x ∈ filter P l) as Hin by (by apply list_elem_of_filter).
  destruct (filter P l); [by apply elem_of_nil in Hin|simpl; lia].
Qed.

Lemma collision_core protected (p : jsstring -> bool) (val : jsstring -> jsstring)
    s el ks1 k1 k2 ks2 :
  k1 ∈ ks1 -> attributeKey k1 = attributeKey k2 ->
  (forall k, k ∈ ks2 -> attributeKey k <> attributeKey k2) ->
  (forall k, k ∈ ks1 ++ k2 :: ks2 -> attributeKey k = attributeKey k2 -> p k = true) ->
  attrs (elem (sync_with protected s el
                 (map (fun key => (attributeKey key, val key))
                    (filter (fun key => p key) (ks1 ++ k2 :: ks2)))) el)
    !! data_ (attributeKey k2) = Some (val k2)
  /\ exists ks,
      appliedAttributes
        (sync_with protected s el
           (map (fun key => (attributeKey key, val key))
              (filter (fun key => p key) (ks1 ++ k2 :: ks2)))) !! el = Some ks
      /\ length (filter (fun k => k = attributeKey k2) ks)
         = length (filter (fun key => attributeKey key = attributeKey k2) (ks1 ++ k2 :: ks2))
      /\ (2 <= length (filter (fun k => k = attributeKey k2) ks))%nat.
Proof.
  intros Hk1 Hsame Hlater Hp.
  assert (p k2 = true) as Hp2.
  { apply Hp; [|done]. apply elem_of_app. right. by left. }
  split.
  - rewrite attrs_sync_with. by apply final_value_last_key.
  - pose proof (count_written_key p val (ks1 ++ k2 :: ks2) (attributeKey k2) Hp) as Hcount.
    assert (2 <= length (filter (fun key => attributeKey key = attributeKey k2)
                           (ks1 ++ k2 :: ks2)))%nat as Htwo.
    { rewrite filter_app, length_app.
      pose proof (filter_length_pos (fun key => attributeKey key = attributeKey k2)
                    ks1 k1 Hk1 Hsame).
      rewrite filter_cons_True by done. simpl. lia. }
    cbv beta in Hcount. rewrite lookup_sync_with.
    destruct (map _ (filter _ (ks1 ++ k2 :: ks2))) as [|kv kvs] eqn:E.
    + simpl in Hcount. lia.
    + eexists. split; [reflexivity|]. split; [exact Hcount|]. rewrite Hcount. exact Htwo.
Qed.

(** C9, as amended.  Let two keys of the metadata sanitise to the same key,
    one of them [k2] being the last key in iteration order that does, and
    let the attribute name not be reserved.  Then after [applyAttributes]
    the attribute holds the value of [k2], and the record of the element
    holds the shared sanitised key once for each metadata key that
    sanitises to it, so at least twice: one [setAttribute] call per
    colliding key.  In [src/main.ts] the keys are those of
    [restFrontmatter], and no name is reserved. *)
Theorem colliding_keys app s f l el fm pre k1 k2 v2 post :
  frontmatter_of app f = Some fm ->
  k1 ∈ map fst pre ->
  attributeKey k1 = attributeKey k2 ->
  (forall k, k ∈ map fst post -> attributeKey k <> attributeKey k2) ->
  (containerEl (view l) = Some el ->
   fm = pre ++ (k2, v2) :: post ->
   NoDup (map fst fm) ->
   contains Part000.prohibitedAttributeNames (data_ (attributeKey k2)) = false ->
   attrs (elem (Part000.applyAttributes app s (Some f) (Some l)) el)
     !! data_ (attributeKey k2) = Some (spec_serialize v2)
   /\ exists ks,
       appliedAttributes (Part000.applyAttributes app s (Some f) (Some l)) !! el = Some ks
       /\ length (filter (fun k => k = attributeKey k2) ks)
          = length (filter (fun key => attributeKey key = attributeKey k2) (map fst fm))
       /\ (2 <= length (filter (fun k => k = attributeKey k2) ks))%nat)
  /\ (querySelector_leaf_content (view l) = Some el ->
      SrcMain.restFrontmatter fm = pre ++ (k2, v2) :: post ->
      NoDup (map fst (SrcMain.restFrontmatter fm)) ->
      attrs (elem (SrcMain.applyAttributes app s (Some f) (Some l)) el)
        !! data_ (attributeKey k2) = Some (spec_serialize v2)
      /\ exists ks,
          appliedAttributes (SrcMain.applyAttributes app s (Some f) (Some l)) !! el = Some ks
          /\ length (filter (fun k => k = attributeKey k2) ks)
             = length (filter (fun key => attributeKey key = attributeKey k2)
                         (map fst (SrcMain.restFrontmatter fm)))
          /\ (2 <= length (filter (fun k => k = attributeKey k2) ks))%nat).
Proof.
  intros Hfm Hk1 Hsame Hlater. split.
  - intros Hel Hsplit Hnodup Hres.
    assert (get_property fm k2 = v2) as Hv2.
    { rewrite Hsplit. apply get_property_first.
      rewrite Hsplit, map_app in Hnodup. apply NoDup_app in Hnodup as (_ & Hdis & _).
      intros Hin. apply (Hdis k2 Hin). by left. }
    rewrite part000_applyAttributes_eq. unfold Part000.plan. rewrite Hel, Hfm.
    cbn [run_plan]. rewrite part000_writes_for_in, part000_writes_filter.
    assert (map fst fm = map fst pre ++ k2 :: map fst post) as Hkeys
      by (by rewrite Hsplit, map_app).
    rewrite Hkeys, <- Hv2, <- part000_processedValue_spec.
    apply (collision_core _ (Part000.applies fm)
             (fun key => Part000.processedValue (get_property fm key))
             s el (map fst pre) k1 k2 (map fst post)); try done.
    intros k Hk HK. unfold Part000.applies. rewrite HK, Hres.
    rewrite <- Hkeys in Hk. apply hasOwnProperty_elem_of in Hk. by rewrite Hk.
  - intros Hel Hsplit Hnodup.
    assert (get_property (SrcMain.restFrontmatter fm) k2 = v2) as Hv2.
    { rewrite Hsplit. apply get_property_first.
      rewrite Hsplit, map_app in Hnodup. apply NoDup_app in Hnodup as (_ & Hdis & _).
      intros Hin. apply (Hdis k2 Hin). by left. }
    rewrite srcmain_applyAttributes_eq. unfold SrcMain.plan. rewrite Hel, Hfm.
    cbn [run_plan]. rewrite srcmain_writes_for_in, srcmain_writes_filter.
    assert (map fst (SrcMain.restFrontmatter fm) = map fst pre ++ k2 :: map fst post)
      as Hkeys by (by rewrite Hsplit, map_app).
    rewrite Hkeys, <- Hv2, <- srcmain_processedValue_spec.
    apply (collision_core _ (hasOwnProperty (SrcMain.restFrontmatter fm))
             (fun key => SrcMain.processedValue
                           (get_property (SrcMain.restFrontmatter fm) key))
             s el (map fst pre) k1 k2 (map fst post)); try done.
    intros k Hk _. rewrite <- Hkeys in Hk. by apply hasOwnProperty_elem_of.
Qed.

Lemma colliding_keys_witness :
  attrs (elem (Part000.applyAttributes (app_with (Some colliding_frontmatter) [])
                 tagged_state (Some note) (Some (leaf_on el1))) el1)
    !! data_ (attributeKey (js "due_date")) = Some (spec_serialize (JSNumber (int 2))).
Proof.
  refine (proj1 (proj1 (colliding_keys (app_with (Some colliding_frontmatter) [])
                          tagged_state note (leaf_on el1) el1 colliding_frontmatter
                          [(js "Due Date", JSNumber (int 1))] (js "Due Date") (js "due_date")
                          (JSNumber (int 2)) [] eq_refl _ _ _) eq_refl eq_refl _ eq_refl)).
  - by left.
  - reflexivity.
  - intros k Hk. by apply elem_of_nil in Hk.
  - apply NoDup_cons. split; [|apply NoDup_singleton].
    intros Hin. apply list_elem_of_singleton in Hin. discriminate.
Defined.

(** C9 as stated fails in [part_000]: the keys [type] and [Type] sanitise
    to the same name, which is reserved, so the attribute is not written at
    all (it keeps the host's value) and no key is recorded. *)
Lemma reserved_collision_counterexample :
  frontmatter_of (app_with (Some type_frontmatter) []) note = Some type_frontmatter
  /\ js "type" <> js "Type"
  /\ attributeKey (js "type") = attributeKey (js "Type")
  /\ attrs (elem (Part000.applyAttributes (app_with (Some type_frontmatter) [])
                    (initial host_dom) (Some note) (Some (leaf_on el1))) el1)
       !! data_ (attributeKey (js "Type")) = Some (js "markdown")
  /\ appliedAttributes
       (Part000.applyAttributes (app_with (Some type_frontmatter) [])
          (initial host_dom) (Some note) (Some (leaf_on el1))) !! el1 = None.
Proof.
  split; [reflexivity|]. split; [discriminate|].
  repeat split; vm_compute; reflexivity.
Qed.

(** ** Fan-out over the views *)

Lemma foldl_filter {A B} (t : B -> bool) (g : A -> B -> A) (a : A) (l : list B) :
  foldl (fun a x => if t x then g a x else a) a l = foldl g a (filter (fun x => t x) l).
Proof.
  revert a; induction l as [|x l IH]; intros a; [done|].
  simpl. rewrite filter_cons. destruct (t x); simpl; apply IH.
Qed.

Lemma mirrors_sync_with protected kvs s e :
  consistent protected s -> mirrors kvs (sync_with protected s e kvs) e.
Proof.
  intros Hc. split; [|split].
  - rewrite lookup_sync_with. by destruct kvs.
  - by apply synced_written.
  - intros n Hn. rewrite synced_written in Hn by done.
    apply elem_of_list_to_set in Hn. by apply synced_attrs.
Qed.

Lemma mirrors_sync_with_other protected kvs s e e' kvs' :
  e ≠ e' -> mirrors kvs s e -> mirrors kvs (sync_with protected s e' kvs') e.
Proof.
  intros Hne (H1 & H2 & H3).
  unfold mirrors. by rewrite lookup_sync_with_other, elem_sync_with_other.
Qed.

Lemma mirrors_same kvs s e1 e2 :
  mirrors kvs s e1 -> mirrors kvs s e2 -> same_system_attributes s e1 e2.
Proof.
  intros (H1 & H2 & H3) (H1' & H2' & H3'). split; [|split].
  - congruence.
  - congruence.
  - intros n Hn. rewrite H3 by done. rewrite H3'; [done|]. congruence.
Qed.

Section FanOut.

Variable protected : jsstring -> bool.
Variable resolve : WorkspaceLeaf -> option Element.
Variable kvs : list (jsstring * jsstring).
Hypothesis kvs_unprotected : unprotected protected kvs.

Let plan_for (leaf : WorkspaceLeaf) : option (Element * list (jsstring * jsstring)) :=
  match resolve leaf with
  | Some el => Some (el, kvs)
  | None => None
  end.

Lemma fan_out_mirrors s leaves :
  consistent protected s ->
  consistent protected (foldl (fun s leaf => run_plan protected s (plan_for leaf)) s leaves)
  /\ forall leaf e, leaf ∈ leaves -> resolve leaf = Some e ->
       mirrors kvs (foldl (fun s leaf => run_plan protected s (plan_for leaf)) s leaves) e.
Proof.
  intros Hc. induction leaves as [|x leaves [IHc IHm]] using rev_ind.
  - split; [done|]. intros leaf e Hin. by apply elem_of_nil in Hin.
  - rewrite foldl_app. cbn [foldl].
    set (s' := foldl (fun s leaf => run_plan protected s (plan_for leaf)) s leaves) in *.
    split.
    + apply consistent_run_plan; [|done]. unfold plan_for.
      intros el kvs0. by destruct (resolve x); intros [= _ <-].
    + intros leaf e Hin He. unfold plan_for.
      destruct (resolve x) as [ex|] eqn:Hx; cbn [run_plan].
      * destruct (decide (e = ex)) as [->|Hne].
        -- by apply mirrors_sync_with.
        -- apply mirrors_sync_with_other; [done|].
           apply elem_of_app in Hin as [Hin|Hin]; [by eapply IHm|].
           apply list_elem_of_singleton in Hin. congruence.
      * apply elem_of_app in Hin as [Hin|Hin]; [by eapply IHm|].
        apply list_elem_of_singleton in Hin. congruence.
Qed.

End FanOut.

Lemma foldl_ext_eq {A B} (f g : A -> B -> A) (a : A) (l : list B) :
  (forall a x, f a x = g a x) -> foldl f a l = foldl g a l.
Proof.
  intros H. revert a; induction l as [|x l IH]; intros a; [done|].
  simpl. by rewrite H, IH.
Qed.

Lemma part000_handleMetadataChange_eq app s file :
  Part000.handleMetadataChange app s file
  = foldl (fun s leaf => Part000.applyAttributes app s (Some file) (Some leaf)) s
      (filter (fun leaf => shows file leaf) (getLeavesOfType_markdown app)).
Proof.
  rewrite <- foldl_filter. unfold Part000.handleMetadataChange.
  apply foldl_ext_eq. intros a leaf. unfold shows.
  destruct (instanceof_MarkdownView (view leaf)); [|done].
  destruct (view_file (view leaf)); [|done]. done.
Qed.

Lemma srcmain_handleMetadataChange_eq app s file :
  SrcMain.handleMetadataChange app s file
  = foldl (fun s leaf => SrcMain.applyAttributes app s (Some file) (Some leaf)) s
      (filter (fun leaf => shows file leaf) (getLeavesOfType_markdown app)).
Proof.
  rewrite <- foldl_filter. unfold SrcMain.handleMetadataChange.
  apply foldl_ext_eq. intros a leaf. unfold shows.
  destruct (instanceof_MarkdownView (view leaf)); [|done].
  destruct (view_file (view leaf)); [|done]. done.
Qed.

Lemma part000_fan_out app s file l1 l2 e1 e2 :
  consistent (contains Part000.prohibitedAttributeNames) s ->
  l1 ∈ getLeavesOfType_markdown app -> l2 ∈ getLeavesOfType_markdown app ->
  shows file l1 = true -> shows file l2 = true ->
  containerEl (view l1) = Some e1 -> containerEl (view l2) = Some e2 ->
  same_system_attributes (Part000.handleMetadataChange app s file) e1 e2.
Proof.
  intros Hc Hl1 Hl2 Hs1 Hs2 He1 He2. rewrite part000_handleMetadataChange_eq.
  set (kvs := match frontmatter_of app file with
              | Some fm => Part000.writes fm (for_in_keys app fm)
              | None => []
              end).
  assert (unprotected (contains Part000.prohibitedAttributeNames) kvs) as Hun.
  { unfold kvs. destruct (frontmatter_of app file);
      [apply part000_writes_unprotected|constructor]. }
  rewrite (foldl_ext_eq _
             (fun s leaf =>
                run_plan (contains Part000.prohibitedAttributeNames) s
                  match containerEl (view leaf) with
                  | Some el => Some (el, kvs)
                  | None => None
                  end)).
  2:{ intros a leaf. rewrite part000_applyAttributes_eq. unfold Part000.plan, kvs.
      destruct (containerEl (view leaf)); [|done].
      by destruct (frontmatter_of app file). }
  destruct (fan_out_mirrors _ (fun leaf => containerEl (view leaf)) kvs Hun s
              (filter (fun leaf => shows file leaf) (getLeavesOfType_markdown app)) Hc)
    as [_ Hm].
  eapply mirrors_same; eapply Hm; try eassumption;
    apply list_elem_of_filter; (split; [by apply Is_true_true|done]).
Qed.

Lemma srcmain_fan_out app s file l1 l2 e1 e2 :
  consistent (fun _ => false) s ->
  l1 ∈ getLeavesOfType_markdown app -> l2 ∈ getLeavesOfType_markdown app ->
  shows file l1 = true -> shows file l2 = true ->
  querySelector_leaf_content (view l1) = Some e1 ->
  querySelector_leaf_content (view l2) = Some e2 ->
  same_system_attributes (SrcMain.handleMetadataChange app s file) e1 e2.
Proof.
  intros Hc Hl1 Hl2 Hs1 Hs2 He1 He2. rewrite srcmain_handleMetadataChange_eq.
  set (kvs := match frontmatter_of app file with
              | Some fm => SrcMain.writes (SrcMain.restFrontmatter fm)
                             (for_in_keys app (SrcMain.restFrontmatter fm))
              | None => []
              end).
  rewrite (foldl_ext_eq _
             (fun s leaf =>
                run_plan (fun _ => false) s
                  match querySelector_leaf_content (view leaf) with
                  | Some el => Some (el, kvs)
                  | None => None
                  end)).
  2:{ intros a leaf. rewrite srcmain_applyAttributes_eq. unfold SrcMain.plan, kvs.
      destruct (querySelector_leaf_content (view leaf)); [|done].
      by destruct (frontmatter_of app file). }
  destruct (fan_out_mirrors _ (fun leaf => querySelector_leaf_content (view leaf)) kvs
              (srcmain_unprotected kvs) s
              (filter (fun leaf => shows file leaf) (getLeavesOfType_markdown app)) Hc)
    as [_ Hm].
  eapply mirrors_same; eapply Hm; try eassumption;
    apply list_elem_of_filter; (split; [by apply Is_true_true|done]).
Qed.

(** C8.  [handleMetadataChange] calls [applyAttributes], with the changed
    file, on exactly the leaves that hold a markdown view whose file has
    the path of the changed file, in their order.  After any sequence of
    calls followed by the handler, two such leaves whose target elements
    resolve carry the same attributes of the plugin's: the same record, the
    same written names and the same values.  Both revisions. *)
Theorem metadata_change_fans_out app file :
  (forall s,
      Part000.handleMetadataChange app s file
      = foldl (fun s leaf => Part000.applyAttributes app s (Some file) (Some leaf)) s
          (filter (fun leaf => shows file leaf) (getLeavesOfType_markdown app)))
  /\ (forall s,
         SrcMain.handleMetadataChange app s file
         = foldl (fun s leaf => SrcMain.applyAttributes app s (Some file) (Some leaf)) s
             (filter (fun leaf => shows file leaf) (getLeavesOfType_markdown app)))
  /\ (forall d calls l1 l2 e1 e2,
         l1 ∈ getLeavesOfType_markdown app -> l2 ∈ getLeavesOfType_markdown app ->
         shows file l1 = true -> shows file l2 = true ->
         (containerEl (view l1) = Some e1 -> containerEl (view l2) = Some e2 ->
          same_system_attributes
            (Part000.handleMetadataChange app (Part000.run calls (initial d)) file) e1 e2)
         /\ (querySelector_leaf_content (view l1) = Some e1 ->
             querySelector_leaf_content (view l2) = Some e2 ->
             same_system_attributes
               (SrcMain.handleMetadataChange app (SrcMain.run calls (initial d)) file)
               e1 e2)).
Proof.
  split; [|split].
  - intros s. apply part000_handleMetadataChange_eq.
  - intros s. apply srcmain_handleMetadataChange_eq.
  - intros d calls l1 l2 e1 e2 Hl1 Hl2 Hs1 Hs2. split; intros He1 He2.
    + apply (part000_fan_out app _ file l1 l2 e1 e2); try done.
      apply part000_run_consistent.
    + apply (srcmain_fan_out app _ file l1 l2 e1 e2); try done.
      apply srcmain_run_consistent.
Qed.

Lemma metadata_change_fans_out_witness :
  same_system_attributes
    (Part000.handleMetadataChange
       (app_with (Some readme_frontmatter) [leaf_on el1; leaf_on el2])
       (Part000.run [] (initial host_dom)) note)
    el1 el2.
Proof.
  destruct (metadata_change_fans_out
              (app_with (Some readme_frontmatter) [leaf_on el1; leaf_on el2]) note)
    as (_ & _ & H).
  refine (proj1 (H host_dom [] (leaf_on el1) (leaf_on el2) el1 el2 _ _ eq_refl eq_refl)
            eq_refl eq_refl).
  - by left.
  - right. by left.
Defined.

(** ** Completeness and teardown *)

(** X3.  After any sequence of calls, a call of [applyAttributes] that
    reaches the metadata leaves on its target element exactly what its loop
    wrote: the record lists the applied keys, the names the plugin has
    written and not removed are the [data-] names of these keys, and each
    holds the value of the last write to it.  Both revisions. *)
Theorem apply_is_complete d calls app f l el fm :
  frontmatter_of app f = Some fm ->
  (containerEl (view l) = Some el ->
   mirrors (Part000.writes fm (for_in_keys app fm))
     (Part000.applyAttributes app (Part000.run calls (initial d)) (Some f) (Some l)) el)
  /\ (querySelector_leaf_content (view l) = Some el ->
      mirrors (SrcMain.writes (SrcMain.restFrontmatter fm)
                 (for_in_keys app (SrcMain.restFrontmatter fm)))
        (SrcMain.applyAttributes app (SrcMain.run calls (initial d)) (Some f) (Some l)) el).
Proof.
  intros Hfm. split; intros Hel.
  - rewrite part000_applyAttributes_eq. unfold Part000.plan. rewrite Hel, Hfm.
    cbn [run_plan]. apply mirrors_sync_with, part000_run_consistent.
  - rewrite srcmain_applyAttributes_eq. unfold SrcMain.plan. rewrite Hel, Hfm.
    cbn [run_plan]. apply mirrors_sync_with, srcmain_run_consistent.
Qed.

Lemma apply_is_complete_witness :
  mirrors (Part000.writes readme_frontmatter
             (for_in_keys (app_with (Some readme_frontmatter) []) readme_frontmatter))
    (Part000.applyAttributes (app_with (Some readme_frontmatter) [])
       (Part000.run [] (initial host_dom)) (Some note) (Some (leaf_on el1))) el1.
Proof.
  exact (proj1 (apply_is_complete host_dom [] (app_with (Some readme_frontmatter) [])
                  note (leaf_on el1) el1 readme_frontmatter eq_refl) eq_refl).
Defined.

Lemma part000_onunload_eq app s :
  Part000.onunload app s
  = foldl (fun s leaf =>
             run_plan (contains Part000.prohibitedAttributeNames) s
               match containerEl (view leaf) with
               | Some el => Some (el, [])
               | None => None
               end)
      s (getLeavesOfType_markdown app).
Proof.
  unfold Part000.onunload. apply foldl_ext_eq. intros a leaf.
  destruct (containerEl (view leaf)); [|done].
  cbn [run_plan]. by rewrite sync_with_nil, part000_clearAttributes_eq.
Qed.

Lemma srcmain_onunload_eq app s :
  SrcMain.onunload app s
  = foldl (fun s leaf =>
             run_plan (fun _ => false) s
               match querySelector_leaf_content (view leaf) with
               | Some el => Some (el, [])
               | None => None
               end)
      s (getLeavesOfType_markdown app).
Proof.
  unfold SrcMain.onunload. apply foldl_ext_eq. intros a leaf.
  destruct (querySelector_leaf_content (view leaf)); [|done].
  cbn [run_plan]. by rewrite sync_with_nil, srcmain_clearAttributes_eq.
Qed.

(** X2.  After any sequence of calls, the teardown sweep [onunload] leaves
    the target element of every markdown leaf without a record and without
    any attribute that the plugin wrote and did not remove.  Both
    revisions. *)
Theorem teardown_leaves_nothing d calls app leaf el :
  leaf ∈ getLeavesOfType_markdown app ->
  (containerEl (view leaf) = Some el ->
   appliedAttributes (Part000.onunload app (Part000.run calls (initial d))) !! el = None
   /\ written (elem (Part000.onunload app (Part000.run calls (initial d))) el) = ∅)
  /\ (querySelector_leaf_content (view leaf) = Some el ->
      appliedAttributes (SrcMain.onunload app (SrcMain.run calls (initial d))) !! el = None
      /\ written (elem (SrcMain.onunload app (SrcMain.run calls (initial d))) el) = ∅).
Proof.
  intros Hleaf. split; intros Hel.
  - rewrite part000_onunload_eq.
    destruct (fan_out_mirrors (contains Part000.prohibitedAttributeNames)
                (fun leaf => containerEl (view leaf)) [] (List.Forall_nil _)
                (Part000.run calls (initial d)) (getLeavesOfType_markdown app)
                (part000_run_consistent d calls)) as [_ Hm].
    destruct (Hm leaf el Hleaf Hel) as (H1 & H2 & _). by split.
  - rewrite srcmain_onunload_eq.
    destruct (fan_out_mirrors (fun _ => false)
                (fun leaf => querySelector_leaf_content (view leaf)) [] (List.Forall_nil _)
                (SrcMain.run calls (initial d)) (getLeavesOfType_markdown app)
                (srcmain_run_consistent d calls)) as [_ Hm].
    destruct (Hm leaf el Hleaf Hel) as (H1 & H2 & _). by split.
Qed.

Lemma teardown_leaves_nothing_witness :
  appliedAttributes
    (Part000.onunload (app_with (Some readme_frontmatter) [leaf_on el1])
       (Part000.run
          [CallApply (app_with (Some readme_frontmatter) [leaf_on el1])
             (Some note) (Some (leaf_on el1))]
          (initial host_dom))) !! el1 = None
  /\ written
       (elem (Part000.onunload (app_with (Some readme_frontmatter) [leaf_on el1])
                (Part000.run
                   [CallApply (app_with (Some readme_frontmatter) [leaf_on el1])
                      (Some note) (Some (leaf_on el1))]
                   (initial host_dom))) el1) = ∅.
Proof.
  refine (proj1 (teardown_leaves_nothing host_dom
                   [CallApply (app_with (Some readme_frontmatter) [leaf_on el1])
                      (Some note) (Some (leaf_on el1))]
                   (app_with (Some readme_frontmatter) [leaf_on el1])
                   (leaf_on el1) el1 _) eq_refl).
  by left.
Defined.

(** * Further properties of the code *)

(** ** The shape of sanitised keys *)

Lemma sanitized_unit_of_replaced c :
  sanitized_unit (ascii_lower (if key_unit_ok c then c else hyphen)) = true.
Proof.
  destruct (key_unit_ok c) eqn:E; [|reflexivity].
  revert E.
  unfold key_unit_ok, sanitized_unit, ascii_lower, is_ascii_lower, is_ascii_upper,
    is_ascii_digit, hyphen.
  destruct (N.leb_spec 65 c), (N.leb_spec c 90); cbn [andb];
    cmp_cases; cbn [andb orb]; first [reflexivity | discriminate | lia].
Qed.

Lemma sanitized_unit_ok c :
  sanitized_unit c = true -> key_unit_ok c = true /\ is_ascii_upper c = false.
Proof.
  unfold key_unit_ok, sanitized_unit, is_ascii_lower, is_ascii_upper, is_ascii_digit, hyphen.
  cmp_cases; cbn [andb orb]; intros Hs; split; first [reflexivity | discriminate | lia].
Qed.

Lemma sanitized_unit_fixed c :
  sanitized_unit c = true -> ascii_lower (if key_unit_ok c then c else hyphen) = c.
Proof.
  intros Hs. destruct (sanitized_unit_ok c Hs) as [-> Hu].
  unfold ascii_lower. by rewrite Hu.
Qed.

Lemma attributeKey_sanitized key : Forall (fun c => sanitized_unit c = true) (attributeKey key).
Proof.
  rewrite attributeKey_map. unfold replace_invalid. rewrite map_map.
  apply Forall_forall. intros c Hc. apply elem_of_map in Hc as (c0 & -> & _).
  apply sanitized_unit_of_replaced.
Qed.

Lemma attributeKey_fixed key :
  Forall (fun c => sanitized_unit c = true) key -> attributeKey key = key.
Proof.
  rewrite attributeKey_map. unfold replace_invalid. rewrite map_map.
  induction 1 as [|c key Hc _ IH]; [done|].
  cbn [map]. by rewrite IH, sanitized_unit_fixed.
Qed.

(** X4.  The sanitised key has as many code units as the key, each of them
    a lower-case ASCII letter, a digit or a hyphen, and sanitising is
    idempotent: a sanitised key is its own sanitised form. *)
Theorem sanitized_key_shape (key : jsstring) :
  length (attributeKey key) = length key
  /\ Forall (fun c => sanitized_unit c = true) (attributeKey key)
  /\ attributeKey (attributeKey key) = attributeKey key.
Proof.
  split; [|split].
  - rewrite attributeKey_map. unfold replace_invalid. by rewrite !length_map.
  - apply attributeKey_sanitized.
  - apply attributeKey_fixed, attributeKey_sanitized.
Qed.

Lemma sanitized_key_shape_check :
  attributeKey (js "Due Date (UTC)") = js "due-date--utc-".
Proof. reflexivity. Qed.

(** ** Elements other than the target *)

Lemma same_element_refl s el : same_element s s el.
Proof. by split. Qed.

Lemma same_element_trans s1 s2 s3 el :
  same_element s1 s2 el -> same_element s2 s3 el -> same_element s1 s3 el.
Proof. intros [H1 H2] [H3 H4]. split; congruence. Qed.

Lemma run_plan_other protected s plan el' :
  (forall kvs, plan <> Some (el', kvs)) ->
  same_element s (run_plan protected s plan) el'.
Proof.
  intros H. destruct plan as [[el kvs]|]; [|apply same_element_refl].
  assert (el' <> el) as Hne by (intros ->; by eapply H).
  cbn [run_plan]. split.
  - by apply elem_sync_with_other.
  - by apply lookup_sync_with_other.
Qed.

(** X5.  [applyAttributes] and [clearAttributes] work on one element only:
    every element other than the target keeps its attributes, its written
    names and its record.  Both revisions. *)
Theorem other_elements_untouched app s file leaf element el' :
  ((forall l, leaf = Some l -> containerEl (view l) <> Some el') ->
   same_element s (Part000.applyAttributes app s file leaf) el')
  /\ ((forall l, leaf = Some l -> querySelector_leaf_content (view l) <> Some el') ->
      same_element s (SrcMain.applyAttributes app s file leaf) el')
  /\ (element <> el' ->
      same_element s (Part000.clearAttributes s element) el'
      /\ same_element s (SrcMain.clearAttributes s element) el').
Proof.
  split; [|split].
  - intros H. rewrite part000_applyAttributes_eq. apply run_plan_other.
    intros kvs Hplan. apply part000_plan_inv in Hplan as (f & l & _ & -> & Hel & _).
    by eapply H.
  - intros H. rewrite srcmain_applyAttributes_eq. apply run_plan_other.
    intros kvs Hplan. apply srcmain_plan_inv in Hplan as (f & l & _ & -> & Hel & _).
    by eapply H.
  - intros Hne.
    rewrite part000_clearAttributes_eq, srcmain_clearAttributes_eq, <- !sync_with_nil.
    split; apply (run_plan_other _ s (Some (element, []))); congruence.
Qed.

Lemma other_elements_untouched_witness :
  same_element tagged_state
    (Part000.applyAttributes (app_with (Some readme_frontmatter) []) tagged_state
       (Some note) (Some (leaf_on el1))) el2.
Proof.
  refine (proj1 (other_elements_untouched (app_with (Some readme_frontmatter) [])
                   tagged_state (Some note) (Some (leaf_on el1)) el1 el2) _).
  intros l [= <-]. discriminate.
Defined.

(** ** What survives every run *)

Lemma starts_with_data_data_ k : starts_with_data (data_ k) = true.
Proof. apply bool_decide_eq_true. reflexivity. Qed.

Lemma untouched_refl n h : untouched n h h.
Proof. by split. Qed.

Lemma untouched_trans n h1 h2 h3 :
  untouched n h1 h2 -> untouched n h2 h3 -> untouched n h1 h3.
Proof. intros [H1 H2] [H3 H4]. split; [congruence|tauto]. Qed.

Lemma not_data_untouched protected s el kvs el' n :
  starts_with_data n = false ->
  untouched n (elem s el') (elem (sync_with protected s el kvs) el').
Proof.
  intros Hn. apply sync_with_frame. intros _. split.
  - intros Hin. apply elem_of_cleared_names in Hin as [_ Hin].
    apply elem_of_map in Hin as (k & -> & _). by rewrite starts_with_data_data_ in Hn.
  - rewrite map_fst_named. intros Hin. apply elem_of_map in Hin as (k & -> & _).
    by rewrite starts_with_data_data_ in Hn.
Qed.

(** X6.  Over any sequence of [applyAttributes] and [clearAttributes]
    calls, an attribute whose name does not begin with [data-] is never
    written and never removed: on every element it has the value the host
    gave it.  In [part_000] the same holds for [data-type] and
    [data-mode]. *)
Theorem host_attributes_survive d calls el n :
  (starts_with_data n = false \/ contains Part000.prohibitedAttributeNames n = true ->
   untouched n (elem (initial d) el) (elem (Part000.run calls (initial d)) el))
  /\ (starts_with_data n = false ->
      untouched n (elem (initial d) el) (elem (SrcMain.run calls (initial d)) el)).
Proof.
  split; intros Hn.
  - induction calls as [|c calls IH] using rev_ind; [apply untouched_refl|].
    unfold Part000.run in *. rewrite foldl_app. cbn [foldl].
    eapply untouched_trans; [exact IH|].
    destruct c as [app file leaf|element]; cbn [Part000.run_call].
    + destruct Hn as [Hn|Hn]; [|by apply part000_prohibited_untouched].
      rewrite part000_applyAttributes_eq.
      destruct (Part000.plan app file leaf) as [[e kvs]|]; [|apply untouched_refl].
      by apply not_data_untouched.
    + destruct Hn as [Hn|Hn]; [|by apply (part000_prohibited_untouched
                                            (app_with None []) _ None None)].
      rewrite part000_clearAttributes_eq, <- sync_with_nil. by apply not_data_untouched.
  - induction calls as [|c calls IH] using rev_ind; [apply untouched_refl|].
    unfold SrcMain.run in *. rewrite foldl_app. cbn [foldl].
    eapply untouched_trans; [exact IH|].
    destruct c as [app file leaf|element]; cbn [SrcMain.run_call].
    + rewrite srcmain_applyAttributes_eq.
      destruct (SrcMain.plan app file leaf) as [[e kvs]|]; [|apply untouched_refl].
      by apply not_data_untouched.
    + rewrite srcmain_clearAttributes_eq, <- sync_with_nil. by apply not_data_untouched.
Qed.

Lemma host_attributes_survive_witness :
  untouched (js "class") (elem (initial host_dom) el1)
    (elem (Part000.run
             [CallApply (app_with (Some readme_frontmatter) []) (Some note)
                (Some (leaf_on el1));
              CallClear el1]
             (initial host_dom)) el1).
Proof.
  refine (proj1 (host_attributes_survive host_dom
                   [CallApply (app_with (Some readme_frontmatter) []) (Some note)
                      (Some (leaf_on el1));
                    CallClear el1] el1 (js "class")) _).
  left. reflexivity.
Defined.

(** ** The keys that get recorded *)

Lemma record_forall_sync_with protected (P : jsstring -> Prop) s el kvs :
  Forall (fun kv => P (fst kv)) kvs ->
  (forall el', Forall P (record s el')) ->
  forall el', Forall P (record (sync_with protected s el kvs) el').
Proof.
  intros Hkvs Hs el'. rewrite record_sync_with. case_decide; [|apply Hs].
  by apply Forall_map.
Qed.

Lemma part000_writes_sanitized fm keys :
  Forall (fun kv => exists key, fst kv = attributeKey key) (Part000.writes fm keys).
Proof.
  apply Forall_forall. intros kv Hkv.
  destruct (part000_written_key fm keys (fst kv)) as (key & _ & ->); [|by eexists].
  apply elem_of_map. by exists kv.
Qed.

Lemma srcmain_writes_sanitized fm keys :
  Forall (fun kv => exists key, fst kv = attributeKey key) (SrcMain.writes fm keys).
Proof.
  apply Forall_forall. intros kv Hkv.
  destruct (srcmain_written_key fm keys (fst kv)) as (key & _ & ->); [|by eexists].
  apply elem_of_map. by exists kv.
Qed.

Lemma part000_run_records_sanitized d calls el :
  Forall (fun k => exists key, k = attributeKey key) (record (Part000.run calls (initial d)) el).
Proof.
  revert el. induction calls as [|c calls IH] using rev_ind; intros el.
  - unfold record, Part000.run, initial. simpl. rewrite lookup_empty. constructor.
  - unfold Part000.run in *. rewrite foldl_app. cbn [foldl].
    destruct c as [app file leaf|element]; cbn [Part000.run_call].
    + rewrite part000_applyAttributes_eq.
      destruct (Part000.plan app file leaf) as [[e kvs]|] eqn:Hplan; [|apply IH].
      cbn [run_plan]. apply record_forall_sync_with; [|exact IH].
      apply part000_plan_inv in Hplan as (f & l & _ & _ & _ & [[_ ->]|(fm & _ & ->)]);
        [constructor|apply part000_writes_sanitized].
    + rewrite part000_clearAttributes_eq, <- sync_with_nil.
      apply record_forall_sync_with; [constructor|exact IH].
Qed.

Lemma srcmain_run_records_sanitized d calls el :
  Forall (fun k => exists key, k = attributeKey key) (record (SrcMain.run calls (initial d)) el).
Proof.
  revert el. induction calls as [|c calls IH] using rev_ind; intros el.
  - unfold record, SrcMain.run, initial. simpl. rewrite lookup_empty. constructor.
  - unfold SrcMain.run in *. rewrite foldl_app. cbn [foldl].
    destruct c as [app file leaf|element]; cbn [SrcMain.run_call].
    + rewrite srcmain_applyAttributes_eq.
      destruct (SrcMain.plan app file leaf) as [[e kvs]|] eqn:Hplan; [|apply IH].
      cbn [run_plan]. apply record_forall_sync_with; [|exact IH].
      apply srcmain_plan_inv in Hplan as (f & l & _ & _ & _ & [[_ ->]|(fm & _ & ->)]);
        [constructor|apply srcmain_writes_sanitized].
    + rewrite srcmain_clearAttributes_eq, <- sync_with_nil.
      apply record_forall_sync_with; [constructor|exact IH].
Qed.

(** X7.  After any sequence of calls, every key in an applied-attribute
    record is a sanitised key: it is made of lower-case ASCII letters,
    digits and hyphens, and sanitising it again changes nothing.  In
    [part_000] no recorded key names a reserved attribute. *)
Theorem recorded_keys_are_sanitized d calls el k :
  (k ∈ record (Part000.run calls (initial d)) el ->
   Forall (fun c => sanitized_unit c = true) k
   /\ attributeKey k = k
   /\ contains Part000.prohibitedAttributeNames (data_ k) = false)
  /\ (k ∈ record (SrcMain.run calls (initial d)) el ->
      Forall (fun c => sanitized_unit c = true) k /\ attributeKey k = k).
Proof.
  split; intros Hk.
  - pose proof (part000_run_records_sanitized d calls el) as Hs.
    rewrite Forall_forall in Hs. destruct (Hs k Hk) as (key & ->).
    split; [apply attributeKey_sanitized|]. split.
    + apply attributeKey_fixed, attributeKey_sanitized.
    + destruct (part000_run_consistent d calls el) as (Hp & _).
      rewrite Forall_forall in Hp. by apply Hp.
  - pose proof (srcmain_run_records_sanitized d calls el) as Hs.
    rewrite Forall_forall in Hs. destruct (Hs k Hk) as (key & ->).
    split; [apply attributeKey_sanitized|].
    apply attributeKey_fixed, attributeKey_sanitized.
Qed.

Lemma recorded_keys_are_sanitized_witness :
  Forall (fun c => sanitized_unit c = true) (js "my-tag")
  /\ attributeKey (js "my-tag") = js "my-tag"
  /\ contains Part000.prohibitedAttributeNames (data_ (js "my-tag")) = false.
Proof.
  refine (proj1 (recorded_keys_are_sanitized host_dom
                   [CallApply (app_with (Some tagged_frontmatter) []) (Some note)
                      (Some (leaf_on el1))] el1 (js "my-tag")) _).
  vm_compute. by left.
Defined.

(** ** Sweeps over the leaves *)

Section Sweep.

Variable protected : jsstring -> bool.

(** What the sweep does for one leaf. *)
Variable plan_of : WorkspaceLeaf -> option (Element * list (jsstring * jsstring)).

Hypothesis plan_of_unprotected :
  forall leaf el kvs, plan_of leaf = Some (el, kvs) -> unprotected protected kvs.

Lemma sweep_frame s leaves e :
  (forall leaf kvs, leaf ∈ leaves -> plan_of leaf <> Some (e, kvs)) ->
  same_element s (foldl (fun s leaf => run_plan protected s (plan_of leaf)) s leaves) e.
Proof.
  induction leaves as [|x leaves IH] using rev_ind; intros H; [apply same_element_refl|].
  rewrite foldl_app. cbn [foldl]. eapply same_element_trans.
  - apply IH. intros leaf kvs Hin. apply H. apply elem_of_app. by left.
  - apply run_plan_other. intros kvs. apply H. apply elem_of_app. right. by left.
Qed.

Lemma sweep_mirrors s leaves :
  consistent protected s ->
  consistent protected (foldl (fun s leaf => run_plan protected s (plan_of leaf)) s leaves)
  /\ forall leaf e kvs,
       leaf ∈ leaves -> plan_of leaf = Some (e, kvs) ->
       (forall leaf' kvs', leaf' ∈ leaves -> plan_of leaf' = Some (e, kvs') -> kvs' = kvs) ->
       mirrors kvs (foldl (fun s leaf => run_plan protected s (plan_of leaf)) s leaves) e.
Proof.
  intros Hc. induction leaves as [|x leaves [IHc IHm]] using rev_ind.
  - split; [done|]. intros leaf e kvs Hin. by apply elem_of_nil in Hin.
  - rewrite foldl_app. cbn [foldl].
    set (s' := foldl (fun s leaf => run_plan protected s (plan_of leaf)) s leaves) in *.
    split.
    + apply consistent_run_plan; [|done]. intros el kvs. apply plan_of_unprotected.
    + intros leaf e kvs Hin Hplan Hsame.
      assert (forall leaf' kvs', leaf' ∈ leaves -> plan_of leaf' = Some (e, kvs') ->
                                 kvs' = kvs) as Hsame'.
      { intros leaf' kvs' Hin'. apply Hsame. apply elem_of_app. by left. }
      assert (x ∈ leaves ++ [x]) as Hx by (apply elem_of_app; right; by left).
      destruct (plan_of x) as [[ex kvsx]|] eqn:Ex; cbn [run_plan].
      * destruct (decide (e = ex)) as [->|Hne].
        -- rewrite (Hsame x kvsx Hx Ex). by apply mirrors_sync_with.
        -- apply mirrors_sync_with_other; [done|].
           apply elem_of_app in Hin as [Hin|Hin]; [by eapply IHm|].
           apply list_elem_of_singleton in Hin. congruence.
      * apply elem_of_app in Hin as [Hin|Hin]; [by eapply IHm|].
        apply list_elem_of_singleton in Hin. congruence.
Qed.

End Sweep.

Lemma part000_plan_resolved app f l el :
  containerEl (view l) = Some el ->
  Part000.plan app (Some f) (Some l) = Some (el, part000_writes_of_file app f).
Proof.
  intros Hel. unfold Part000.plan, part000_writes_of_file. rewrite Hel.
  by destruct (frontmatter_of app f).
Qed.

Lemma srcmain_plan_resolved app f l el :
  querySelector_leaf_content (view l) = Some el ->
  SrcMain.plan app (Some f) (Some l) = Some (el, srcmain_writes_of_file app f).
Proof.
  intros Hel. unfold SrcMain.plan, srcmain_writes_of_file. rewrite Hel.
  by destruct (frontmatter_of app f).
Qed.

Lemma part000_writes_of_file_unprotected app f :
  unprotected (contains Part000.prohibitedAttributeNames) (part000_writes_of_file app f).
Proof.
  unfold part000_writes_of_file. destruct (frontmatter_of app f);
    [apply part000_writes_unprotected|constructor].
Qed.

(** ** Opening a file *)

(** X8.  After any sequence of calls, [handleFileOpen] with a file leaves
    the target element of the active leaf carrying exactly what the file's
    metadata gives (nothing of the plugin's when the file has no
    frontmatter), so nothing of a document shown there before stays, and it
    leaves every other element as it was.  Without a file, or without an
    active leaf, it changes nothing.  [part_000] takes the leaf of the
    active markdown view, [src/main.ts] the active leaf. *)
Theorem file_open_syncs_active_view d calls app f l el :
  (activeMarkdownView_leaf app = Some l -> containerEl (view l) = Some el ->
   mirrors (part000_writes_of_file app f)
     (Part000.handleFileOpen app (Part000.run calls (initial d)) (Some f)) el
   /\ forall el', el' <> el ->
        same_element (Part000.run calls (initial d))
          (Part000.handleFileOpen app (Part000.run calls (initial d)) (Some f)) el')
  /\ (activeLeaf app = Some l -> querySelector_leaf_content (view l) = Some el ->
      mirrors (srcmain_writes_of_file app f)
        (SrcMain.handleFileOpen app (SrcMain.run calls (initial d)) (Some f)) el
      /\ forall el', el' <> el ->
           same_element (SrcMain.run calls (initial d))
             (SrcMain.handleFileOpen app (SrcMain.run calls (initial d)) (Some f)) el')
  /\ (forall s, Part000.handleFileOpen app s None = s
                /\ SrcMain.handleFileOpen app s None = s)
  /\ (forall s file,
         (activeMarkdownView_leaf app = None -> Part000.handleFileOpen app s file = s)
         /\ (activeLeaf app = None -> SrcMain.handleFileOpen app s file = s)).
Proof.
  split; [|split; [|split]].
  - intros Hl Hel. unfold Part000.handleFileOpen. rewrite Hl.
    rewrite part000_applyAttributes_eq, (part000_plan_resolved _ _ _ _ Hel).
    cbn [run_plan]. split.
    + apply mirrors_sync_with, part000_run_consistent.
    + intros el' Hne. apply (run_plan_other _ _ (Some (el, _))). congruence.
  - intros Hl Hel. unfold SrcMain.handleFileOpen. rewrite Hl.
    rewrite srcmain_applyAttributes_eq, (srcmain_plan_resolved _ _ _ _ Hel).
    cbn [run_plan]. split.
    + apply mirrors_sync_with, srcmain_run_consistent.
    + intros el' Hne. apply (run_plan_other _ _ (Some (el, _))). congruence.
  - done.
  - intros s file. split; intros Hl.
    + unfold Part000.handleFileOpen. rewrite Hl. by destruct file.
    + unfold SrcMain.handleFileOpen. rewrite Hl. by destruct file.
Qed.

(** ** A metadata change and the views of other documents *)

(** X9.  [handleMetadataChange] leaves alone every element that is not the
    target of a markdown view showing a file with the path of the changed
    file: its attributes, written names and record stay.  Both
    revisions. *)
Theorem metadata_change_leaves_other_views app s file e :
  ((forall leaf, leaf ∈ getLeavesOfType_markdown app -> shows file leaf = true ->
                 containerEl (view leaf) <> Some e) ->
   same_element s (Part000.handleMetadataChange app s file) e)
  /\ ((forall leaf, leaf ∈ getLeavesOfType_markdown app -> shows file leaf = true ->
                    querySelector_leaf_content (view leaf) <> Some e) ->
      same_element s (SrcMain.handleMetadataChange app s file) e).
Proof.
  split; intros H.
  - rewrite part000_handleMetadataChange_eq.
    rewrite (foldl_ext_eq _
               (fun s leaf => run_plan (contains Part000.prohibitedAttributeNames) s
                                (Part000.plan app (Some file) (Some leaf))))
      by (intros; apply part000_applyAttributes_eq).
    apply sweep_frame. intros leaf kvs Hin Hplan.
    apply list_elem_of_filter in Hin as [Hs Hin]. apply Is_true_true in Hs.
    apply part000_plan_inv in Hplan as (f0 & l0 & _ & [= <-] & Hel & _).
    by eapply H.
  - rewrite srcmain_handleMetadataChange_eq.
    rewrite (foldl_ext_eq _
               (fun s leaf => run_plan (fun _ => false) s
                                (SrcMain.plan app (Some file) (Some leaf))))
      by (intros; apply srcmain_applyAttributes_eq).
    apply sweep_frame. intros leaf kvs Hin Hplan.
    apply list_elem_of_filter in Hin as [Hs Hin]. apply Is_true_true in Hs.
    apply srcmain_plan_inv in Hplan as (f0 & l0 & _ & [= <-] & Hel & _).
    by eapply H.
Qed.

Lemma file_open_syncs_active_view_witness :
  mirrors (part000_writes_of_file (app_focused None (leaf_on el1)) note)
    (Part000.handleFileOpen (app_focused None (leaf_on el1))
       (Part000.run
          [CallApply (app_with (Some tagged_frontmatter) []) (Some note)
             (Some (leaf_on el1))]
          (initial host_dom))
       (Some note)) el1.
Proof.
  exact (proj1 (proj1 (file_open_syncs_active_view host_dom
                         [CallApply (app_with (Some tagged_frontmatter) []) (Some note)
                            (Some (leaf_on el1))]
                         (app_focused None (leaf_on el1)) note (leaf_on el1) el1)
                  eq_refl eq_refl)).
Defined.

Lemma metadata_change_leaves_other_views_witness :
  same_element tagged_state
    (Part000.handleMetadataChange (app_with (Some readme_frontmatter) [leaf_on el1])
       tagged_state note) el2.
Proof.
  refine (proj1 (metadata_change_leaves_other_views
                   (app_with (Some readme_frontmatter) [leaf_on el1])
                   tagged_state note el2) _).
  intros leaf Hin _. apply list_elem_of_singleton in Hin. subst leaf. discriminate.
Defined.

(** ** The startup sweep *)

Lemma part000_onLayoutReady_eq app s :
  Part000.onLayoutReady app s
  = foldl (fun s leaf =>
             run_plan (contains Part000.prohibitedAttributeNames) s
               (if instanceof_MarkdownView (view leaf)
                then Part000.plan app (view_file (view leaf)) (Some leaf)
                else None))
      s (getLeavesOfType_markdown app).
Proof.
  unfold Part000.onLayoutReady. apply foldl_ext_eq. intros a leaf.
  destruct (instanceof_MarkdownView (view leaf)); [|done]. cbn [negb].
  destruct (view_file (view leaf)); [apply part000_applyAttributes_eq|done].
Qed.

Lemma srcmain_onLayoutReady_eq app s :
  SrcMain.onLayoutReady app s
  = foldl (fun s leaf =>
             run_plan (fun _ => false) s
               (if instanceof_MarkdownView (view leaf)
                then SrcMain.plan app (view_file (view leaf)) (Some leaf)
                else None))
      s (getLeavesOfType_markdown app).
Proof.
  unfold SrcMain.onLayoutReady. apply foldl_ext_eq. intros a leaf.
  destruct (instanceof_MarkdownView (view leaf)); [|done]. cbn [negb].
  destruct (view_file (view leaf)); [apply srcmain_applyAttributes_eq|done].
Qed.

(** X10.  The startup sweep [onLayoutReady], run after any sequence of
    calls, leaves the target element of every markdown view that has a file
    carrying exactly what that file's metadata gives, provided no other
    leaf has the same target element.  An element that is the target of no
    markdown view with a file is left as it was.  Both revisions. *)
Theorem layout_ready_syncs_views d calls app e :
  (forall leaf f,
      leaf ∈ getLeavesOfType_markdown app ->
      instanceof_MarkdownView (view leaf) = true ->
      view_file (view leaf) = Some f ->
      (containerEl (view leaf) = Some e ->
       (forall leaf', leaf' ∈ getLeavesOfType_markdown app ->
                      containerEl (view leaf') = Some e -> leaf' = leaf) ->
       mirrors (part000_writes_of_file app f)
         (Part000.onLayoutReady app (Part000.run calls (initial d))) e)
      /\ (querySelector_leaf_content (view leaf) = Some e ->
          (forall leaf', leaf' ∈ getLeavesOfType_markdown app ->
                         querySelector_leaf_content (view leaf') = Some e -> leaf' = leaf) ->
          mirrors (srcmain_writes_of_file app f)
            (SrcMain.onLayoutReady app (SrcMain.run calls (initial d))) e))
  /\ (forall s,
         ((forall leaf, leaf ∈ getLeavesOfType_markdown app ->
                        instanceof_MarkdownView (view leaf) = true ->
                        is_Some (view_file (view leaf)) ->
                        containerEl (view leaf) <> Some e) ->
          same_element s (Part000.onLayoutReady app s) e)
         /\ ((forall leaf, leaf ∈ getLeavesOfType_markdown app ->
                           instanceof_MarkdownView (view leaf) = true ->
                           is_Some (view_file (view leaf)) ->
                           querySelector_leaf_content (view leaf) <> Some e) ->
             same_element s (SrcMain.onLayoutReady app s) e)).
Proof.
  split.
  - intros leaf f Hin Hmd Hfile. split; intros Hel Honly.
    + rewrite part000_onLayoutReady_eq.
      eapply (sweep_mirrors (contains Part000.prohibitedAttributeNames)).
      * intros leaf0 el0 kvs0. destruct (instanceof_MarkdownView (view leaf0)); [|done].
        apply part000_plan_unprotected.
      * apply part000_run_consistent.
      * exact Hin.
      * rewrite Hmd, Hfile. by apply part000_plan_resolved.
      * intros leaf' kvs' Hin' Hplan'.
        destruct (instanceof_MarkdownView (view leaf')) eqn:Hmd'; [|done].
        pose proof Hplan' as Hinv.
        apply part000_plan_inv in Hinv as (f0 & l0 & Hf0 & [= <-] & Hel0 & _).
        rewrite (Honly leaf' Hin' Hel0) in Hplan'.
        rewrite Hfile, (part000_plan_resolved _ _ _ _ Hel) in Hplan'. congruence.
    + rewrite srcmain_onLayoutReady_eq.
      eapply (sweep_mirrors (fun _ => false)).
      * intros leaf0 el0 kvs0 _. apply srcmain_unprotected.
      * apply srcmain_run_consistent.
      * exact Hin.
      * rewrite Hmd, Hfile. by apply srcmain_plan_resolved.
      * intros leaf' kvs' Hin' Hplan'.
        destruct (instanceof_MarkdownView (view leaf')) eqn:Hmd'; [|done].
        pose proof Hplan' as Hinv.
        apply srcmain_plan_inv in Hinv as (f0 & l0 & Hf0 & [= <-] & Hel0 & _).
        rewrite (Honly leaf' Hin' Hel0) in Hplan'.
        rewrite Hfile, (srcmain_plan_resolved _ _ _ _ Hel) in Hplan'. congruence.
  - intros s. split; intros H.
    + rewrite part000_onLayoutReady_eq. apply sweep_frame. intros leaf kvs Hin Hplan.
      destruct (instanceof_MarkdownView (view leaf)) eqn:Hmd; [|done].
      apply part000_plan_inv in Hplan as (f0 & l0 & Hf0 & [= <-] & Hel0 & _).
      eapply H; eauto.
    + rewrite srcmain_onLayoutReady_eq. apply sweep_frame. intros leaf kvs Hin Hplan.
      destruct (instanceof_MarkdownView (view leaf)) eqn:Hmd; [|done].
      apply srcmain_plan_inv in Hplan as (f0 & l0 & Hf0 & [= <-] & Hel0 & _).
      eapply H; eauto.
Qed.

Lemma layout_ready_syncs_views_witness :
  mirrors (part000_writes_of_file
             (app_with (Some readme_frontmatter) [leaf_on el1; leaf_on el2]) note)
    (Part000.onLayoutReady (app_with (Some readme_frontmatter) [leaf_on el1; leaf_on el2])
       (Part000.run [] (initial host_dom))) el2.
Proof.
  destruct (layout_ready_syncs_views host_dom []
              (app_with (Some readme_frontmatter) [leaf_on el1; leaf_on el2]) el2)
    as [H _].
  refine (proj1 (H (leaf_on el2) note _ eq_refl eq_refl) eq_refl _).
  - right. by left.
  - intros leaf' Hin Hel. cbn [app_with getLeavesOfType_markdown] in Hin.
    repeat (apply elem_of_cons in Hin as [->|Hin]); try reflexivity; try discriminate.
    by apply elem_of_nil in Hin.
Defined.

(** ** Apply, then clear *)

Lemma sync_then_clear protected s el kvs :
  consistent protected s -> unprotected protected kvs ->
  appliedAttributes (clear_with protected (sync_with protected s el kvs) el) !! el = None
  /\ written (elem (clear_with protected (sync_with protected s el kvs) el) el) = ∅
  /\ (forall n,
         attrs (elem (clear_with protected (sync_with protected s el kvs) el) el) !! n = None
         \/ attrs (elem (clear_with protected (sync_with protected s el kvs) el) el) !! n
            = attrs (elem s el) !! n)
  /\ (forall kv, kv ∈ kvs ->
         attrs (elem (clear_with protected (sync_with protected s el kvs) el) el)
           !! data_ (fst kv) = None).
Proof.
  intros Hc Hun.
  assert (consistent protected (sync_with protected s el kvs)) as Hc1
    by (by apply consistent_sync_with).
  assert (cleared_names protected (sync_with protected s el kvs) el
          = map data_ (map fst kvs)) as Hcl.
  { rewrite consistent_cleared_names by done.
    by rewrite record_sync_with, decide_True. }
  rewrite <- sync_with_nil.
  destruct (mirrors_sync_with protected [] _ el Hc1) as (H1 & H2 & _).
  split; [exact H1|]. split; [exact H2|].
  assert (forall n,
             attrs (elem (sync_with protected (sync_with protected s el kvs) el []) el) !! n
             = if decide (n ∈ map data_ (map fst kvs)) then None
               else attrs (elem (sync_with protected s el kvs) el) !! n) as Hlook.
  { intros n. rewrite (attrs_sync_with protected _ el [] n), Hcl. done. }
  split.
  - intros n. rewrite Hlook. case_decide as Hin; [by left|].
    rewrite attrs_sync_with, final_value_notin by (by rewrite map_fst_named).
    case_decide; [by left|by right].
  - intros kv Hkv. rewrite Hlook, decide_True; [done|].
    apply elem_of_map. exists (fst kv). split; [done|].
    apply elem_of_map. by exists kv.
Qed.

(** X11.  After any sequence of calls, [applyAttributes] followed by
    [clearAttributes] on the target element leaves it with no record and
    with nothing the plugin wrote; every attribute is gone or has the value
    it had before the pair of calls, and every attribute the call wrote is
    gone: a host attribute that the metadata overwrote is removed, not
    restored.  Both revisions. *)
Theorem apply_then_clear d calls app f l el :
  (containerEl (view l) = Some el ->
   appliedAttributes
     (Part000.clearAttributes
        (Part000.applyAttributes app (Part000.run calls (initial d)) (Some f) (Some l))
        el) !! el = None
   /\ written
        (elem (Part000.clearAttributes
                 (Part000.applyAttributes app (Part000.run calls (initial d))
                    (Some f) (Some l)) el) el) = ∅
   /\ (forall n,
          attrs (elem (Part000.clearAttributes
                         (Part000.applyAttributes app (Part000.run calls (initial d))
                            (Some f) (Some l)) el) el) !! n = None
          \/ attrs (elem (Part000.clearAttributes
                            (Part000.applyAttributes app (Part000.run calls (initial d))
                               (Some f) (Some l)) el) el) !! n
             = attrs (elem (Part000.run calls (initial d)) el) !! n)
   /\ (forall kv, kv ∈ part000_writes_of_file app f ->
          attrs (elem (Part000.clearAttributes
                         (Part000.applyAttributes app (Part000.run calls (initial d))
                            (Some f) (Some l)) el) el) !! data_ (fst kv) = None))
  /\ (querySelector_leaf_content (view l) = Some el ->
      appliedAttributes
        (SrcMain.clearAttributes
           (SrcMain.applyAttributes app (SrcMain.run calls (initial d)) (Some f) (Some l))
           el) !! el = None
      /\ written
           (elem (SrcMain.clearAttributes
                    (SrcMain.applyAttributes app (SrcMain.run calls (initial d))
                       (Some f) (Some l)) el) el) = ∅
      /\ (forall n,
             attrs (elem (SrcMain.clearAttributes
                            (SrcMain.applyAttributes app (SrcMain.run calls (initial d))
                               (Some f) (Some l)) el) el) !! n = None
             \/ attrs (elem (SrcMain.clearAttributes
                               (SrcMain.applyAttributes app (SrcMain.run calls (initial d))
                                  (Some f) (Some l)) el) el) !! n
                = attrs (elem (SrcMain.run calls (initial d)) el) !! n)
      /\ (forall kv, kv ∈ srcmain_writes_of_file app f ->
             attrs (elem (SrcMain.clearAttributes
                            (SrcMain.applyAttributes app (SrcMain.run calls (initial d))
                               (Some f) (Some l)) el) el) !! data_ (fst kv) = None)).
Proof.
  split; intros Hel.
  - rewrite part000_clearAttributes_eq, part000_applyAttributes_eq,
      (part000_plan_resolved _ _ _ _ Hel).
    cbn [run_plan]. apply sync_then_clear.
    + apply part000_run_consistent.
    + apply part000_writes_of_file_unprotected.
  - rewrite srcmain_clearAttributes_eq, srcmain_applyAttributes_eq,
      (srcmain_plan_resolved _ _ _ _ Hel).
    cbn [run_plan]. apply sync_then_clear.
    + apply srcmain_run_consistent.
    + apply srcmain_unprotected.
Qed.

Lemma apply_then_clear_witness :
  appliedAttributes
    (Part000.clearAttributes
       (Part000.applyAttributes (app_with (Some readme_frontmatter) [])
          (Part000.run [] (initial host_dom)) (Some note) (Some (leaf_on el1)))
       el1) !! el1 = None.
Proof.
  exact (proj1 (proj1 (apply_then_clear host_dom [] (app_with (Some readme_frontmatter) [])
                         note (leaf_on el1) el1) eq_refl)).
Defined.

(** ** Inherited keys and the [position] key *)

Lemma part000_plan_ext app app' file leaf :
  (forall f, frontmatter_of app f = frontmatter_of app' f) ->
  Part000.plan app file leaf = Part000.plan app' file leaf.
Proof.
  intros H. unfold Part000.plan. destruct file as [f|], leaf as [l|]; try done.
  destruct (containerEl (view l)); [|done]. rewrite <- H.
  destruct (frontmatter_of app f); [|done]. by rewrite !part000_writes_for_in.
Qed.

Lemma srcmain_plan_rest app app' f l fm fm' :
  frontmatter_of app f = Some fm -> frontmatter_of app' f = Some fm' ->
  SrcMain.restFrontmatter fm = SrcMain.restFrontmatter fm' ->
  SrcMain.plan app (Some f) (Some l) = SrcMain.plan app' (Some f) (Some l).
Proof.
  intros Hfm Hfm' Hrest. unfold SrcMain.plan. rewrite Hfm, Hfm', Hrest.
  destruct (querySelector_leaf_content (view l)); [|done].
  by rewrite !srcmain_writes_for_in.
Qed.

Lemma srcmain_plan_ext app app' file leaf :
  (forall f, frontmatter_of app f = frontmatter_of app' f) ->
  SrcMain.plan app file leaf = SrcMain.plan app' file leaf.
Proof.
  intros H. destruct file as [f|], leaf as [l|]; try done.
  destruct (frontmatter_of app f) as [fm|] eqn:Hfm.
  - apply (srcmain_plan_rest app app' f l fm fm); [done| |done]. by rewrite <- H.
  - unfold SrcMain.plan. by rewrite <- H, Hfm.
Qed.

(** X12.  Keys that the frontmatter object only inherits never reach the
    DOM: two applications that give the same frontmatter for every file,
    whatever enumerable keys their prototype chains add, make
    [applyAttributes] return the same state.  Both revisions. *)
Theorem inherited_keys_ignored app app' s file leaf :
  (forall f, frontmatter_of app f = frontmatter_of app' f) ->
  Part000.applyAttributes app s file leaf = Part000.applyAttributes app' s file leaf
  /\ SrcMain.applyAttributes app s file leaf = SrcMain.applyAttributes app' s file leaf.
Proof.
  intros H. rewrite !part000_applyAttributes_eq, !srcmain_applyAttributes_eq.
  by rewrite (part000_plan_ext app app'), (srcmain_plan_ext app app').
Qed.

Lemma inherited_keys_ignored_witness :
  Part000.applyAttributes (app_with (Some readme_frontmatter) []) tagged_state
    (Some note) (Some (leaf_on el1))
  = Part000.applyAttributes
      {| getFileCache := fun _ => Some {| frontmatter := Some readme_frontmatter |};
         getLeavesOfType_markdown := [];
         activeLeaf := None;
         activeMarkdownView_leaf := None;
         inherited_keys := [js "polluted"; js "tags"] |}
      tagged_state (Some note) (Some (leaf_on el1)).
Proof.
  refine (proj1 (inherited_keys_ignored _ _ tagged_state (Some note) (Some (leaf_on el1)) _)).
  intros f. reflexivity.
Defined.

Lemma restFrontmatter_own_iff fm key :
  hasOwnProperty (SrcMain.restFrontmatter fm) key = true
  <-> hasOwnProperty fm key = true /\ key <> js "position".
Proof.
  rewrite !hasOwnProperty_elem_of. unfold SrcMain.restFrontmatter.
  rewrite !elem_of_map. split.
  - intros (p & -> & Hp). apply list_elem_of_filter in Hp as [Hne Hp]. split.
    + by exists p.
    + intros Heq. apply Is_true_true, negb_true_iff, bool_decide_eq_false in Hne. done.
  - intros [(p & -> & Hp) Hne]. exists p. split; [done|].
    apply list_elem_of_filter. split; [|done].
    apply Is_true_true, negb_true_iff, bool_decide_eq_false. done.
Qed.

(** X13.  In [src/main.ts] the frontmatter key [position] never reaches
    the DOM: every write of [applyAttributes] stems from an own key other
    than [position], and two snapshots that are equal once [position] is
    dropped make [applyAttributes] return the same state. *)
Theorem srcmain_position_ignored app f fm :
  frontmatter_of app f = Some fm ->
  (forall kv, kv ∈ srcmain_writes_of_file app f ->
              exists key, hasOwnProperty fm key = true /\ key <> js "position"
                          /\ fst kv = attributeKey key)
  /\ (forall app' fm' s l,
         frontmatter_of app' f = Some fm' ->
         SrcMain.restFrontmatter fm = SrcMain.restFrontmatter fm' ->
         SrcMain.applyAttributes app s (Some f) (Some l)
         = SrcMain.applyAttributes app' s (Some f) (Some l)).
Proof.
  intros Hfm. split.
  - intros kv Hkv. unfold srcmain_writes_of_file in Hkv. rewrite Hfm in Hkv.
    destruct (srcmain_written_key (SrcMain.restFrontmatter fm)
                (for_in_keys app (SrcMain.restFrontmatter fm)) (fst kv))
      as (key & Hown & Hkey).
    { apply elem_of_map. by exists kv. }
    apply restFrontmatter_own_iff in Hown as [Hown Hne]. by exists key.
  - intros app' fm' s l Hfm' Hrest. rewrite !srcmain_applyAttributes_eq.
    by rewrite (srcmain_plan_rest app app' f l fm fm').
Qed.

Lemma srcmain_position_ignored_witness :
  SrcMain.applyAttributes (app_with (Some positioned_frontmatter) []) tagged_state
    (Some note) (Some (leaf_on el1))
  = SrcMain.applyAttributes
      (app_with (Some [(js "tags", JSArray [JSString (js "travel")])]) [])
      tagged_state (Some note) (Some (leaf_on el1)).
Proof.
  destruct (srcmain_position_ignored (app_with (Some positioned_frontmatter) []) note
              positioned_frontmatter eq_refl) as [_ H].
  apply (H _ [(js "tags", JSArray [JSString (js "travel")])]); reflexivity.
Defined.

(** ** The two revisions side by side *)

Lemma clear_with_ext (p1 p2 : jsstring -> bool) s el :
  (forall k, k ∈ record s el -> p1 (data_ k) = p2 (data_ k)) ->
  clear_with p1 s el = clear_with p2 s el.
Proof.
  unfold clear_with, record. destruct (appliedAttributes s !! el) as [keys|]; [|done].
  cbn [default]. intros H. do 2 f_equal.
  induction keys as [|k keys IH]; [done|].
  cbn [map]. rewrite !filter_cons, (H k) by (by left).
  rewrite IH by (intros k' Hk'; apply H; by right). done.
Qed.

Lemma sync_with_ext (p1 p2 : jsstring -> bool) s el kvs :
  (forall k, k ∈ record s el -> p1 (data_ k) = p2 (data_ k)) ->
  sync_with p1 s el kvs = sync_with p2 s el kvs.
Proof. intros H. unfold sync_with. by rewrite (clear_with_ext p1 p2). Qed.

Lemma restFrontmatter_without_position fm :
  hasOwnProperty fm (js "position") = false -> SrcMain.restFrontmatter fm = fm.
Proof.
  unfold SrcMain.restFrontmatter, hasOwnProperty.
  induction fm as [|p fm IH]; [done|].
  cbn [existsb]. intros H. apply orb_false_iff in H as [Hp H].
  rewrite filter_cons_True by (by rewrite Hp). by rewrite IH.
Qed.

Lemma writes_agree fm keys :
  (forall key, hasOwnProperty fm key = true ->
               contains Part000.prohibitedAttributeNames (data_ (attributeKey key)) = false) ->
  Part000.writes fm keys = SrcMain.writes fm keys.
Proof.
  intros H. unfold Part000.writes, SrcMain.writes. apply flat_map_ext. intros key.
  destruct (hasOwnProperty fm key) eqn:Hown; cbn [negb]; [|done].
  by rewrite (H key Hown), part000_processedValue_spec, srcmain_processedValue_spec.
Qed.

(** X14.  The two revisions serialise every value to the same text.  For a
    leaf on which both resolve the same target element, a frontmatter with
    no [position] key and no key that sanitises to a reserved name, and a
    target whose record names no reserved attribute, [applyAttributes] of
    [part_000] and of [src/main.ts] return the same state. *)
Theorem revisions_agree app s f l :
  (forall v, Part000.processedValue v = SrcMain.processedValue v)
  /\ (containerEl (view l) = querySelector_leaf_content (view l) ->
      (forall fm, frontmatter_of app f = Some fm ->
                  hasOwnProperty fm (js "position") = false
                  /\ forall key, hasOwnProperty fm key = true ->
                       contains Part000.prohibitedAttributeNames
                         (data_ (attributeKey key)) = false) ->
      (forall el k, k ∈ record s el ->
                    contains Part000.prohibitedAttributeNames (data_ k) = false) ->
      Part000.applyAttributes app s (Some f) (Some l)
      = SrcMain.applyAttributes app s (Some f) (Some l)).
Proof.
  split.
  - intros v. by rewrite part000_processedValue_spec, srcmain_processedValue_spec.
  - intros Hel Hfm Hrec.
    rewrite part000_applyAttributes_eq, srcmain_applyAttributes_eq.
    unfold Part000.plan, SrcMain.plan. rewrite <- Hel.
    destruct (containerEl (view l)) as [el|]; [|done].
    destruct (frontmatter_of app f) as [fm|]; cbn [run_plan].
    + destruct (Hfm fm eq_refl) as [Hpos Hkeys].
      rewrite (restFrontmatter_without_position fm Hpos), (writes_agree fm _ Hkeys).
      apply sync_with_ext. intros k Hk. by rewrite (Hrec el k Hk).
    + apply sync_with_ext. intros k Hk. by rewrite (Hrec el k Hk).
Qed.

Lemma revisions_agree_witness :
  Part000.applyAttributes (app_with (Some tagged_frontmatter) []) (initial host_dom)
    (Some note) (Some (leaf_on el1))
  = SrcMain.applyAttributes (app_with (Some tagged_frontmatter) []) (initial host_dom)
      (Some note) (Some (leaf_on el1)).
Proof.
  refine (proj2 (revisions_agree (app_with (Some tagged_frontmatter) []) (initial host_dom)
                   note (leaf_on el1)) eq_refl _ _).
  - intros fm [= <-]. split; [reflexivity|].
    intros key Hkey. apply hasOwnProperty_elem_of in Hkey.
    cbn [tagged_frontmatter map fst] in Hkey.
    apply list_elem_of_singleton in Hkey. subst key. reflexivity.
  - intros el k Hk. unfold record, initial in Hk. cbn [appliedAttributes] in Hk.
    rewrite lookup_empty in Hk. by apply elem_of_nil in Hk.
Defined.

(** ** Repeating a metadata change *)

Lemma dom_sync_with protected s el kvs :
  dom (sync_with protected s el kvs)
  = match cleared_names protected s el ++ map fst (named kvs) with
    | [] => dom s
    | _ => <[el := elem (sync_with protected s el kvs) el]> (dom s)
    end.
Proof.
  rewrite elem_sync_with, decide_True by done.
  destruct kvs as [|kv kvs].
  - rewrite sync_with_nil, app_nil_r. unfold clear_with, cleared_names, record.
    destruct (appliedAttributes s !! el) as [keys|]; [|done]. cbn [default from_option id].
    change (dom (appliedAttributes_delete ?s0 el)) with (dom s0).
    destruct (filter _ (map data_ keys)) as [|n ns] eqn:E; [done|].
    by rewrite dom_remove_all.
  - assert (cleared_names protected s el ++ map fst (named (kv :: kvs)) <> []) as Hne
      by (intros H; apply app_eq_nil in H as [_ H]; discriminate).
    destruct (cleared_names protected s el ++ map fst (named (kv :: kvs))) eqn:E; [done|].
    unfold sync_with. cbn [length Nat.ltb Nat.leb].
    rewrite dom_appliedAttributes_set, dom_set_all by done.
    rewrite insert_dom_clear_with. f_equal.
    by rewrite elem_clear_with, decide_True.
Qed.

Lemma cleared_names_sync_with_other protected s el kvs el' :
  el' <> el ->
  cleared_names protected (sync_with protected s el kvs) el' = cleared_names protected s el'.
Proof. intros H. unfold cleared_names. by rewrite record_sync_with, decide_False. Qed.

Lemma elem_sync_with_after_other protected s e1 k1 e2 k2 :
  e1 <> e2 ->
  elem (sync_with protected (sync_with protected s e1 k1) e2 k2) e2
  = elem (sync_with protected s e2 k2) e2.
Proof.
  intros Hne. rewrite !elem_sync_with.
  rewrite cleared_names_sync_with_other by congruence.
  rewrite (decide_False (P := e2 = e1)) by congruence.
  by rewrite !decide_True.
Qed.

Lemma sync_with_comm protected s e1 k1 e2 k2 :
  e1 <> e2 ->
  sync_with protected (sync_with protected s e1 k1) e2 k2
  = sync_with protected (sync_with protected s e2 k2) e1 k1.
Proof.
  intros Hne. apply state_eq.
  - rewrite (dom_sync_with protected (sync_with protected s e1 k1) e2 k2).
    rewrite (dom_sync_with protected (sync_with protected s e2 k2) e1 k1).
    rewrite !cleared_names_sync_with_other by congruence.
    rewrite (elem_sync_with_after_other protected s e1 k1 e2 k2) by congruence.
    rewrite (elem_sync_with_after_other protected s e2 k2 e1 k1) by congruence.
    rewrite (dom_sync_with protected s e1 k1), (dom_sync_with protected s e2 k2).
    destruct (cleared_names protected s e2 ++ map fst (named k2));
      destruct (cleared_names protected s e1 ++ map fst (named k1)); try done.
    by apply insert_insert_ne.
  - rewrite !applied_sync_with. destruct k1, k2.
    + apply delete_delete.
    + by apply insert_delete_ne.
    + by apply delete_insert_ne.
    + by apply insert_insert_ne.
Qed.

Section Repeat.

Variable protected : jsstring -> bool.
Variable resolve : WorkspaceLeaf -> option Element.
Variable kvs : list (jsstring * jsstring).
Hypothesis kvs_unprotected : unprotected protected kvs.

Let step (s : State) (leaf : WorkspaceLeaf) : State :=
  run_plan protected s
    match resolve leaf with
    | Some el => Some (el, kvs)
    | None => None
    end.

Lemma step_absorbed s leaves leaf :
  leaf ∈ leaves -> step (foldl step s leaves) leaf = foldl step s leaves.
Proof.
  induction leaves as [|x leaves IH] using rev_ind; intros Hin.
  - by apply elem_of_nil in Hin.
  - rewrite foldl_app. cbn [foldl].
    destruct (resolve leaf) as [e|] eqn:He; [|unfold step at 1; by rewrite He].
    destruct (resolve x) as [ex|] eqn:Hx.
    + destruct (decide (e = ex)) as [->|Hne].
      * unfold step at 1 2 4. rewrite He, Hx. cbn [run_plan].
        by apply sync_with_idempotent.
      * assert (leaf ∈ leaves) as Hin'.
        { apply elem_of_app in Hin as [Hin|Hin]; [done|].
          apply list_elem_of_singleton in Hin. congruence. }
        unfold step at 1 2 4. rewrite He, Hx. cbn [run_plan].
        rewrite sync_with_comm by done. f_equal.
        specialize (IH Hin'). unfold step at 1 in IH. by rewrite He in IH.
    + assert (leaf ∈ leaves) as Hin'.
      { apply elem_of_app in Hin as [Hin|Hin]; [done|].
        apply list_elem_of_singleton in Hin. congruence. }
      assert (step (foldl step s leaves) x = foldl step s leaves) as ->
        by (unfold step at 1; by rewrite Hx).
      by apply IH.
Qed.

Lemma sweep_twice s leaves more :
  (forall leaf, leaf ∈ more -> leaf ∈ leaves) ->
  foldl step (foldl step s leaves) more = foldl step s leaves.
Proof.
  induction more as [|x more IH]; intros Hsub; [done|].
  cbn [foldl]. rewrite step_absorbed by (apply Hsub; by left).
  apply IH. intros leaf Hin. apply Hsub. by right.
Qed.

End Repeat.

(** X15.  [handleMetadataChange] is idempotent: handling the same change
    twice in succession, with unchanged metadata and leaves, gives the
    state that handling it once gives, whatever views share target
    elements.  Both revisions. *)
Theorem handleMetadataChange_idempotent app s file :
  Part000.handleMetadataChange app (Part000.handleMetadataChange app s file) file
  = Part000.handleMetadataChange app s file
  /\ SrcMain.handleMetadataChange app (SrcMain.handleMetadataChange app s file) file
     = SrcMain.handleMetadataChange app s file.
Proof.
  split.
  - rewrite !part000_handleMetadataChange_eq.
    assert (forall s0 l0,
               foldl (fun s leaf => Part000.applyAttributes app s (Some file) (Some leaf))
                 s0 l0
               = foldl (fun s leaf =>
                          run_plan (contains Part000.prohibitedAttributeNames) s
                            match containerEl (view leaf) with
                            | Some el => Some (el, part000_writes_of_file app file)
                            | None => None
                            end) s0 l0) as Heq.
    { intros s0 l0. apply foldl_ext_eq. intros a leaf.
      rewrite part000_applyAttributes_eq.
      destruct (containerEl (view leaf)) as [el|] eqn:Hel;
        [by rewrite (part000_plan_resolved _ _ _ _ Hel)|].
      unfold Part000.plan. by rewrite Hel. }
    rewrite !Heq.
    apply (sweep_twice _ (fun leaf => containerEl (view leaf))); [|done].
    apply part000_writes_of_file_unprotected.
  - rewrite !srcmain_handleMetadataChange_eq.
    assert (forall s0 l0,
               foldl (fun s leaf => SrcMain.applyAttributes app s (Some file) (Some leaf))
                 s0 l0
               = foldl (fun s leaf =>
                          run_plan (fun _ => false) s
                            match querySelector_leaf_content (view leaf) with
                            | Some el => Some (el, srcmain_writes_of_file app file)
                            | None => None
                            end) s0 l0) as Heq.
    { intros s0 l0. apply foldl_ext_eq. intros a leaf.
      rewrite srcmain_applyAttributes_eq.
      destruct (querySelector_leaf_content (view leaf)) as [el|] eqn:Hel;
        [by rewrite (srcmain_plan_resolved _ _ _ _ Hel)|].
      unfold SrcMain.plan. by rewrite Hel. }
    rewrite !Heq.
    apply (sweep_twice _ (fun leaf => querySelector_leaf_content (view leaf))); [|done].
    apply srcmain_unprotected.
Qed.

(** ** Calls on different elements *)

Lemma run_plan_comm protected s p1 p2 :
  (forall e1 k1 e2 k2, p1 = Some (e1, k1) -> p2 = Some (e2, k2) -> e1 <> e2) ->
  run_plan protected (run_plan protected s p1) p2
  = run_plan protected (run_plan protected s p2) p1.
Proof.
  intros H. destruct p1 as [[e1 k1]|], p2 as [[e2 k2]|]; try done.
  cbn [run_plan]. apply sync_with_comm. by eapply H.
Qed.

(** X16.  Calls of [applyAttributes] on leaves with different target
    elements do not interfere: made in either order, they give the same
    state.  Both revisions. *)
Theorem applyAttributes_commute app1 app2 s file1 file2 l1 l2 :
  (containerEl (view l1) <> containerEl (view l2) ->
   Part000.applyAttributes app2 (Part000.applyAttributes app1 s file1 (Some l1))
     file2 (Some l2)
   = Part000.applyAttributes app1 (Part000.applyAttributes app2 s file2 (Some l2))
       file1 (Some l1))
  /\ (querySelector_leaf_content (view l1) <> querySelector_leaf_content (view l2) ->
      SrcMain.applyAttributes app2 (SrcMain.applyAttributes app1 s file1 (Some l1))
        file2 (Some l2)
      = SrcMain.applyAttributes app1 (SrcMain.applyAttributes app2 s file2 (Some l2))
          file1 (Some l1)).
Proof.
  split; intros Hne.
  - rewrite !part000_applyAttributes_eq. apply run_plan_comm.
    intros e1 k1 e2 k2 H1 H2.
    apply part000_plan_inv in H1 as (f1 & l1' & _ & [= <-] & Hel1 & _).
    apply part000_plan_inv in H2 as (f2 & l2' & _ & [= <-] & Hel2 & _).
    congruence.
  - rewrite !srcmain_applyAttributes_eq. apply run_plan_comm.
    intros e1 k1 e2 k2 H1 H2.
    apply srcmain_plan_inv in H1 as (f1 & l1' & _ & [= <-] & Hel1 & _).
    apply srcmain_plan_inv in H2 as (f2 & l2' & _ & [= <-] & Hel2 & _).
    congruence.
Qed.

Lemma applyAttributes_commute_witness :
  Part000.applyAttributes (app_with (Some tagged_frontmatter) [])
    (Part000.applyAttributes (app_with (Some readme_frontmatter) []) (initial host_dom)
       (Some note) (Some (leaf_on el1)))
    (Some note) (Some (leaf_on el2))
  = Part000.applyAttributes (app_with (Some readme_frontmatter) [])
      (Part000.applyAttributes (app_with (Some tagged_frontmatter) []) (initial host_dom)
         (Some note) (Some (leaf_on el2)))
      (Some note) (Some (leaf_on el1)).
Proof.
  refine (proj1 (applyAttributes_commute (app_with (Some readme_frontmatter) [])
                   (app_with (Some tagged_frontmatter) []) (initial host_dom)
                   (Some note) (Some note) (leaf_on el1) (leaf_on el2)) _).
  discriminate.
Defined.
